(** * Call-audit pipeline: score compilation and segment aggregation

    A shallow embedding of the two deterministic engines of the repository:

    - [api/scoring_v2.py]: [check_fatal_parameters], [compile_final_report]
      and the entry point [score_transcript_main];
    - [api/transcription.py]: the text sanitizers, the token loop and the
      segment conversion of [transcribe_audio],
      [merge_consecutive_speaker_segments] and [normalize_speaker_labels].

    Python values are modelled as follows.  An [int] is a [Z].  A [float] is
    an IEEE 754 binary64 number, Rocq's primitive [float].  A [str] that
    carries transcript text is a list of Unicode code points ([text]); a
    [str] used as an identifier (criterion id, speaker label, message) is a
    [string].  A [dict] with a fixed set of keys is a record, a key read with
    [d.get(k, default)] is an [option] field, and the oracle's judgment
    payload, keyed by criterion id, is a [gmap].  A raised exception is the
    left injection of a sum. *)

From Stdlib Require Import ZArith Floats.PrimFloat Floats.SpecFloat Floats.FloatOps.
From stdpp Require Import base option list gmap strings pretty.

Local Open Scope Z_scope.

(** ** Python numbers *)

(** A value that is an [int] on one path and a [float] on another, such as
    the percentages, which are the literal [0] when the maximum is not
    positive. *)
Inductive number :=
  | Int (z : Z)
  | Float (f : float).

Definition Z_to_SF (z : Z) : spec_float :=
  match z with
  | Z0 => S754_zero false
  | Zpos p => S754_finite false p 0
  | Zneg p => S754_finite true p 0
  end.

(** [float(z)]: the binary64 number nearest to the integer. *)
Definition float_of_int (z : Z) : float :=
  SF2Prim (binary_normalize prec emax z 0 false).

(** [a / b] on two [int]s, for [b] nonzero: the exact quotient rounded once
    to binary64.  Python raises OverflowError when that quotient is beyond
    the binary64 range, which takes a point value above 10^308; the model
    returns the IEEE infinity there. *)
Definition int_truediv (a b : Z) : float :=
  SF2Prim (SFdiv prec emax (Z_to_SF a) (Z_to_SF b)).

(** Nearest integer to [n / d] for [0 <= n] and [0 < d], ties to even. *)
Definition round_half_even (n d : Z) : Z :=
  let q := n / d in
  let r := n mod d in
  match 2 * r ?= d with
  | Lt => q
  | Gt => q + 1
  | Eq => if Z.even q then q else q + 1
  end.

(** [round(x, ndigits)] on a [float], for [0 <= ndigits]: the exact binary
    value is rounded to [ndigits] decimals, ties to even, and the decimal
    result is converted back to the nearest binary64 number.  Infinities and
    NaN round to themselves and the sign of a zero result is kept. *)
Definition py_round (x : float) (ndigits : Z) : float :=
  match Prim2SF x with
  | S754_finite s m e =>
      if 0 <=? e then x
      else
        let n := round_half_even (Z.pos m * 10 ^ ndigits) (2 ^ (- e)) in
        let sn := match n with
                  | Zpos p => S754_finite s p 0
                  | _ => S754_zero s
                  end in
        SF2Prim (SFdiv prec emax sn (Z_to_SF (10 ^ ndigits)))
  | _ => x
  end.

(** ** Python text *)

Definition text := list N.

Definition text_of_string (s : string) : text :=
  Ascii.N_of_ascii <$> String.list_ascii_of_string s.

(** [str.isspace] on one code point (the characters [str.strip] removes). *)
Definition is_space (c : N) : bool :=
  ((0x09 <=? c) && (c <=? 0x0D) || (0x1C <=? c) && (c <=? 0x20)
   || (c =? 0x85) || (c =? 0xA0) || (c =? 0x1680)
   || (0x2000 <=? c) && (c <=? 0x200A)
   || (c =? 0x2028) || (c =? 0x2029) || (c =? 0x202F) || (c =? 0x205F)
   || (c =? 0x3000))%N.

Fixpoint lstrip (t : text) : text :=
  match t with
  | c :: t' => if is_space c then lstrip t' else t
  | [] => []
  end.

Definition strip (t : text) : text := reverse (lstrip (reverse (lstrip t))).

(** The character class of the [re.sub] call in [_clean_unicode]. *)
Definition is_zero_width (c : N) : bool :=
  ((0x200B <=? c) && (c <=? 0x200F) || (0x202A <=? c) && (c <=? 0x202E)
   || (0x2060 <=? c) && (c <=? 0x206F) || (c =? 0xFEFF))%N.

(** A code point [encode("utf-8", errors="ignore")] drops. *)
Definition is_surrogate (c : N) : bool := ((0xD800 <=? c) && (c <=? 0xDFFF))%N.

(** [_clean_unicode]; [None] stands for a falsy argument that is not a
    string.  The [except] branch of the source cannot be reached, since both
    codecs run with [errors="ignore"]. *)
Definition _clean_unicode (t : option text) : text :=
  match t with
  | None | Some [] => []
  | Some t =>
      let t := filter (λ c, c ≠ 0xFFFD%N) t in
      let t := filter (λ c, is_zero_width c = false) t in
      let t := filter (λ c, is_surrogate c = false) t in
      filter (λ c, (c < 0x110000)%N) t
  end.

Definition sanitize_text (t : option text) : text :=
  match t with
  | None | Some [] => []
  | Some _ => strip (_clean_unicode t)
  end.

Definition sanitize_token_text (t : option text) : text :=
  match t with
  | None | Some [] => []
  | Some _ => _clean_unicode t
  end.

(** Truthiness of a [str]. *)
Definition nonempty {A} (l : list A) : bool :=
  match l with [] => false | _ => true end.

(** [sep.join(l)]. *)
Fixpoint join (sep : string) (l : list string) : string :=
  match l with
  | [] => ""
  | [s] => s
  | s :: l' => s +:+ sep +:+ join sep l'
  end.

(** ** Exceptions *)

Inductive exn :=
  | ValueError (msg : string)
  | FileNotFoundError (msg : string)
  | OtherError (msg : string).

Definition result (A : Type) : Type := exn + A.
Definition Raise {A} (e : exn) : result A := inl e.
Definition Return {A} (a : A) : result A := inr a.

Definition exn_message (e : exn) : string :=
  match e with
  | ValueError m | FileNotFoundError m | OtherError m => m
  end.

(** * Score compilation ([api/scoring_v2.py]) *)

(** ** The rubric and the oracle's payload *)

(** One entry of a category's [sub_parameters]. *)
Record sub_parameter := {
  sp_id : option string;
  sp_name : option string;
  sp_max_points : option Z;
}.

Record category := {
  cat_id : option string;
  cat_name : option string;
  cat_max_points : option Z;
  cat_sub_parameters : option (list sub_parameter);
}.

Record rubric := {
  rb_title : option string;
  rb_total_points : option Z;
  rb_categories : option (list category);
}.

(** One judgment of the oracle: the value of [scoring_results[param_id]].
    A field is [None] when the key is absent. *)
Record judgment := {
  j_score : option Z;
  j_rationale : option string;
  j_evidence : option (list string);
  j_validation_notes : option string;
}.

(** The empty dict [{}] that stands in for a criterion the oracle left out. *)
Definition no_judgment : judgment :=
  {| j_score := None; j_rationale := None; j_evidence := None;
     j_validation_notes := None |}.

(** ** The report *)

Record param_detail := {
  pd_id : option string;
  pd_name : option string;
  pd_max_points : Z;
  pd_points_awarded : Z;
  pd_score : Z;
  pd_percentage : number;
  pd_rationale : string;
  pd_evidence : list string;
  pd_validation_notes : string;
  pd_response : string;
  pd_is_na : bool;
  pd_is_fatal : bool;
}.

Record category_score := {
  cs_name : option string;
  cs_max_points : Z;
  cs_score : Z;
  cs_percentage : number;
  cs_parameters : list param_detail;
}.

Record report_metadata := {
  md_model_used : string;
  md_transcript_length : Z;
  md_num_segments : Z;
  md_scoring_system : string;
  md_version : string;
  md_fatal_parameter_failed : bool;
  md_failed_fatal_parameters : option (list string);
  md_fatal_error_reason : option string;
}.

Record report := {
  rubric_title : string;
  total_points : Z;
  total_score : Z;
  percentage : number;
  criteria_scores : list param_detail;
  metadata : report_metadata;
  fatal_error_reason : option string;
  failed_fatal_parameters : option (list string);
}.

(** ** The fatal gate *)

(** [fatal_param_mapping] of [check_fatal_parameters], in insertion order. *)
Definition fatal_param_mapping : list (string * string) :=
  [ ("brand_intro", "No introduction of brand");
    ("project_knowledge_accuracy", "Wrong Information / False Commitment");
    ("professional", "No Professional Behaviour");
    ("tone_voice_modulation", "Avoid being Rude and Unprofessional") ]%string.

(** [fatal_param_ids] of [compile_final_report]. *)
Definition fatal_param_ids : gset string :=
  {[ "brand_intro"; "project_knowledge_accuracy"; "professional";
     "tone_voice_modulation" ]}%string.

(** [scoring_results.get(param_id, {})]; the keys of a parsed JSON object
    are strings, so a missing id ([None]) finds nothing. *)
Definition get_result (scoring_results : gmap string judgment)
    (param_id : option string) : judgment :=
  default no_judgment (param_id ≫= λ k, scoring_results !! k).

(** [result.get('score', 0)] *)
Definition get_score (result : judgment) : Z := default 0 (j_score result).

(** One turn of the loop of [check_fatal_parameters]. *)
Definition fatal_step (scoring_results : gmap string judgment)
    (failed_fatal_params : list string) (item : string * string) : list string :=
  let '(param_id, param_description) := item in
  let result := get_result scoring_results (Some param_id) in
  let param_score := get_score result in
  if param_score =? -1 then failed_fatal_params
  else if param_score =? 0 then
    failed_fatal_params ++ [param_description +:+ " (" +:+ param_id +:+ ")"]
  else failed_fatal_params.

Definition check_fatal_parameters (scoring_results : gmap string judgment)
    (rb : rubric) : bool * list string :=
  let failed_fatal_params :=
    fold_left (fatal_step scoring_results) fatal_param_mapping [] in
  let is_fatal := (0 <? length failed_fatal_params)%nat in
  (is_fatal, failed_fatal_params).

(** ** Compiling the report *)

(** [round((a / b * 100), 2) if b > 0 else 0] *)
Definition percent (a b : Z) : number :=
  if b >? 0
  then Float (py_round (PrimFloat.mul (int_truediv a b) (float_of_int 100)) 2)
  else Int 0.

(** The accumulators the inner loop of [compile_final_report] updates. *)
Record param_acc := {
  pa_cat_awarded : Z;
  pa_total_awarded : Z;
  pa_cat_details : list param_detail;
  pa_detailed_scores : list param_detail;
}.

(** The body of the loop over a category's [sub_parameters]. *)
Definition sub_param_step (scoring_results : gmap string judgment)
    (acc : param_acc) (sub_param : sub_parameter) : param_acc :=
  let param_id := sp_id sub_param in
  let param_name := sp_name sub_param in
  let param_max := default 0 (sp_max_points sub_param) in
  let is_fatal :=
    match param_id with
    | Some k => bool_decide (k ∈ fatal_param_ids)
    | None => false
    end in
  let result := get_result scoring_results param_id in
  let param_score := get_score result in
  let rationale := default "No rationale provided"%string (j_rationale result) in
  let evidence := default [] (j_evidence result) in
  let validation_notes := default ""%string (j_validation_notes result) in
  let '(param_score, is_na) :=
    if param_score =? -1 then (param_max, true)
    else if param_score <? 0 then (0, false)
    else if param_score >? param_max then (param_max, false)
    else (param_score, false) in
  let '(cat_awarded, total_awarded) :=
    if negb is_fatal
    then (pa_cat_awarded acc + param_score, pa_total_awarded acc + param_score)
    else (pa_cat_awarded acc, pa_total_awarded acc) in
  let detail :=
    {| pd_id := param_id;
       pd_name := param_name;
       pd_max_points := param_max;
       pd_points_awarded := param_score;
       pd_score := param_score;
       pd_percentage := percent param_score param_max;
       pd_rationale := rationale;
       pd_evidence := evidence;
       pd_validation_notes := validation_notes;
       pd_response := "V2";
       pd_is_na := is_na;
       pd_is_fatal := is_fatal |} in
  {| pa_cat_awarded := cat_awarded;
     pa_total_awarded := total_awarded;
     pa_cat_details := pa_cat_details acc ++ [detail];
     pa_detailed_scores := pa_detailed_scores acc ++ [detail] |}.

(** The accumulators of the outer loop, over the rubric's categories. *)
Record cat_acc := {
  ca_total_awarded : Z;
  ca_category_scores : gmap (option string) category_score;
  ca_detailed_scores : list param_detail;
}.

(** The body of the loop over [rubric.get('categories', [])]. *)
Definition category_step (scoring_results : gmap string judgment)
    (acc : cat_acc) (cat : category) : cat_acc :=
  let cat_max := default 0 (cat_max_points cat) in
  let inner :=
    fold_left (sub_param_step scoring_results)
      (default [] (cat_sub_parameters cat))
      {| pa_cat_awarded := 0;
         pa_total_awarded := ca_total_awarded acc;
         pa_cat_details := [];
         pa_detailed_scores := ca_detailed_scores acc |} in
  {| ca_total_awarded := pa_total_awarded inner;
     ca_category_scores :=
       <[ cat_id cat :=
            {| cs_name := cat_name cat;
               cs_max_points := cat_max;
               cs_score := pa_cat_awarded inner;
               cs_percentage := percent (pa_cat_awarded inner) cat_max;
               cs_parameters := pa_cat_details inner |} ]>
         (ca_category_scores acc);
     ca_detailed_scores := pa_detailed_scores inner |}.

(** The two nested loops, from the initial accumulators. *)
Definition compile_categories (scoring_results : gmap string judgment)
    (rb : rubric) : cat_acc :=
  fold_left (category_step scoring_results) (default [] (rb_categories rb))
    {| ca_total_awarded := 0; ca_category_scores := ∅;
       ca_detailed_scores := [] |}.

Section Compile.
(** [OPENAI_MODEL] of [api/config.py], read from the environment. *)
Context (OPENAI_MODEL : string).

Definition compile_final_report (scoring_results : gmap string judgment)
    (rb : rubric) (transcript_length num_segments : Z) : report :=
  let '(is_fatal_failed, failed_fatal_params) :=
    check_fatal_parameters scoring_results rb in
  let total_possible := default 100 (rb_total_points rb) in
  let loops := compile_categories scoring_results rb in
  let detailed_scores := ca_detailed_scores loops in
  let total_awarded :=
    if is_fatal_failed then 0 else ca_total_awarded loops in
  let percentage := percent total_awarded total_possible in
  let fatal_reason :=
    ("Score set to 0 due to FATAL parameter failure(s): "
       +:+ join ", " failed_fatal_params)%string in
  let metadata :=
    {| md_model_used := OPENAI_MODEL;
       md_transcript_length := transcript_length;
       md_num_segments := num_segments;
       md_scoring_system := "granular_v2";
       md_version := "2.0";
       md_fatal_parameter_failed := is_fatal_failed;
       md_failed_fatal_parameters :=
         if is_fatal_failed then Some failed_fatal_params else None;
       md_fatal_error_reason :=
         if is_fatal_failed then Some fatal_reason else None |} in
  {| rubric_title :=
       default "Empire Pre-Sales Call Quality Audit"%string (rb_title rb);
     total_points := total_possible;
     total_score := total_awarded;
     percentage := percentage;
     criteria_scores := detailed_scores;
     metadata := metadata;
     fatal_error_reason := md_fatal_error_reason metadata;
     failed_fatal_parameters :=
       if is_fatal_failed then Some failed_fatal_params else None |}.
End Compile.

(** * Segment aggregation ([api/transcription.py]) *)

(** One token of the provider's transcript.  [tok_speaker] is [None] when
    the key is absent; any other field is [None] when the key is absent or
    null.  A timing field holds [float(raw)]. *)
Record token := {
  tok_text : option text;
  tok_speaker : option string;
  tok_start_time : option float;
  tok_start_ms : option float;
  tok_end_time : option float;
  tok_end_ms : option float;
}.

(** The dict the token loop builds: four keys. *)
Record token_segment := {
  ts_speaker : string;
  ts_start_time : float;
  ts_end_time : float;
  ts_text : text;
}.

(** An entry of [speaker_segments]: five keys. *)
Record segment := {
  speaker : string;
  start_time : float;
  end_time : float;
  duration : float;
  seg_text : text;
}.

(** [x / 1000.0 if x > 1000 else x] *)
Definition ms_guard (x : float) : float :=
  if PrimFloat.ltb 1000 x then PrimFloat.div x 1000 else x.

(** The start and end of a token: seconds if given, else milliseconds
    divided by 1000, else [0.0] for the start and the start for the end. *)
Definition token_start (tok : token) : float :=
  match tok_start_time tok with
  | Some raw_start => raw_start
  | None =>
      match tok_start_ms tok with
      | Some raw_start => PrimFloat.div raw_start 1000
      | None => 0%float
      end
  end.

Definition token_end (tok : token) : float :=
  match tok_end_time tok with
  | Some raw_end => raw_end
  | None =>
      match tok_end_ms tok with
      | Some raw_end => PrimFloat.div raw_end 1000
      | None => token_start tok
      end
  end.

(** [tok.get("speaker", "UNKNOWN")] *)
Definition token_speaker (tok : token) : string :=
  default "UNKNOWN"%string (tok_speaker tok).

(** The segment a token opens. *)
Definition open_segment (tok : token) : token_segment :=
  {| ts_speaker := token_speaker tok;
     ts_start_time := ms_guard (token_start tok);
     ts_end_time := ms_guard (token_end tok);
     ts_text := sanitize_token_text (tok_text tok) |}.

(** The open segment after a token has been added to it. *)
Definition extend_segment (current_seg : token_segment) (tok : token)
    : token_segment :=
  {| ts_speaker := ts_speaker current_seg;
     ts_start_time := ts_start_time current_seg;
     ts_end_time := ms_guard (token_end tok);
     ts_text := ts_text current_seg ++ sanitize_token_text (tok_text tok) |}.

(** The test of the token loop on an open segment:
    [current_seg["speaker"] != speaker or
     start - current_seg["end_time"] > merge_threshold]. *)
Definition breaks_segment (merge_threshold : float)
    (current_seg : token_segment) (tok : token) : bool :=
  negb (bool_decide (ts_speaker current_seg = token_speaker tok))
  || PrimFloat.ltb merge_threshold
       (PrimFloat.sub (token_start tok) (ts_end_time current_seg)).

(** The body of [for tok in tokens], on the pair [segments], [current_seg]. *)
Definition token_step (merge_threshold : float)
    (st : list token_segment * option token_segment) (tok : token)
    : list token_segment * option token_segment :=
  let '(segments, current_seg) := st in
  if nonempty (sanitize_token_text (tok_text tok)) then
    match current_seg with
    | None => (segments, Some (open_segment tok))
    | Some cur =>
        if breaks_segment merge_threshold cur tok
        then (segments ++ [cur], Some (open_segment tok))
        else (segments, Some (extend_segment cur tok))
    end
  else st.

(** Step 6 of [transcribe_audio]: the token loop and the final flush. *)
Definition build_segments (merge_threshold : float) (tokens : list token)
    : list token_segment :=
  let '(segments, current_seg) :=
    fold_left (token_step merge_threshold) tokens ([], None) in
  match current_seg with
  | Some cur => segments ++ [cur]
  | None => segments
  end.

(** The aggregator as the specification words it: a segment is open or not;
    a token with empty sanitized text is skipped; a token opens a segment
    when none is open, when its speaker differs, or when it starts more than
    the threshold after the open segment's end, and the segment it replaces
    is emitted; any other token extends the open segment; at the end of the
    stream the open segment is flushed. *)
Inductive aggregates (merge_threshold : float)
    : option token_segment → list token → list token_segment → Prop :=
  | agg_end_closed :
      aggregates merge_threshold None [] []
  | agg_flush cur :
      aggregates merge_threshold (Some cur) [] [cur]
  | agg_skip open_seg tok tokens out :
      sanitize_token_text (tok_text tok) = [] →
      aggregates merge_threshold open_seg tokens out →
      aggregates merge_threshold open_seg (tok :: tokens) out
  | agg_first tok tokens out :
      sanitize_token_text (tok_text tok) ≠ [] →
      aggregates merge_threshold (Some (open_segment tok)) tokens out →
      aggregates merge_threshold None (tok :: tokens) out
  | agg_break cur tok tokens out :
      sanitize_token_text (tok_text tok) ≠ [] →
      ts_speaker cur ≠ token_speaker tok
      ∨ PrimFloat.ltb merge_threshold
          (PrimFloat.sub (token_start tok) (ts_end_time cur)) = true →
      aggregates merge_threshold (Some (open_segment tok)) tokens out →
      aggregates merge_threshold (Some cur) (tok :: tokens) (cur :: out)
  | agg_extend cur tok tokens out :
      sanitize_token_text (tok_text tok) ≠ [] →
      ts_speaker cur = token_speaker tok →
      PrimFloat.ltb merge_threshold
        (PrimFloat.sub (token_start tok) (ts_end_time cur)) = false →
      aggregates merge_threshold
        (Some {| ts_speaker := ts_speaker cur;
                 ts_start_time := ts_start_time cur;
                 ts_end_time := ms_guard (token_end tok);
                 ts_text := ts_text cur ++ sanitize_token_text (tok_text tok) |})
        tokens out →
      aggregates merge_threshold (Some cur) (tok :: tokens) out.

(** [enumerate(l)] *)
Definition enumerate {A} (l : list A) : list (nat * A) :=
  zip (seq 0 (length l)) l.

(** The body of the loop that converts the token segments; the state is
    [speaker_segments], [total_duration]. *)
Definition convert_step (st : list segment * float)
    (item : nat * token_segment) : list segment * float :=
  let '(speaker_segments, total_duration) := st in
  let '(idx, seg) := item in
  let speaker_id :=
    if bool_decide (ts_speaker seg = ""%string)
    then ("SPEAKER_UNKNOWN_" +:+ pretty idx)%string
    else ts_speaker seg in
  let start_time := ts_start_time seg in
  let end_time := ts_end_time seg in
  let segment_text := sanitize_text (Some (ts_text seg)) in
  if nonempty segment_text then
    let end_time :=
      if PrimFloat.ltb end_time start_time
      then PrimFloat.add start_time 1
      else end_time in
    (speaker_segments ++
       [{| speaker := speaker_id;
           start_time := py_round start_time 2;
           end_time := py_round end_time 2;
           duration := py_round (PrimFloat.sub end_time start_time) 2;
           seg_text := segment_text |}],
     if PrimFloat.ltb total_duration end_time then end_time
     else total_duration)
  else st.

Definition convert_segments (segments : list token_segment)
    : list segment * float :=
  fold_left convert_step (enumerate segments) ([], 0%float).

(** The same-speaker branch of the merge loop: [current] takes the next
    segment's end and text; its start and its duration are left as they are. *)
Definition absorb (current next_seg : segment) : segment :=
  let merged_text :=
    strip (seg_text current) ++ text_of_string " "
      ++ strip (seg_text next_seg) in
  {| speaker := speaker current;
     start_time := start_time current;
     end_time := end_time next_seg;
     duration := duration current;
     seg_text := sanitize_text (Some merged_text) |}.

(** One turn of the loop of [merge_consecutive_speaker_segments]; the state
    is [merged], [current]. *)
Definition merge_step (st : list segment * segment) (next_seg : segment)
    : list segment * segment :=
  let '(merged, current) := st in
  if bool_decide (speaker current = speaker next_seg)
  then (merged, absorb current next_seg)
  else (merged ++ [current], next_seg).

Definition merge_consecutive_speaker_segments (segments : list segment)
    : list segment :=
  match segments with
  | [] => []
  | first :: rest =>
      let '(merged, current) := fold_left merge_step rest ([], first) in
      merged ++ [current]
  end.

(** One turn of the first loop of [normalize_speaker_labels]; the state is
    [speaker_map], [speaker_counter]. *)
Definition label_step (st : gmap string string * Z) (seg : segment)
    : gmap string string * Z :=
  let '(speaker_map, speaker_counter) := st in
  let speaker_id := speaker seg in
  match speaker_map !! speaker_id with
  | None =>
      (<[ speaker_id := ("Speaker " +:+ pretty speaker_counter)%string ]>
         speaker_map,
       speaker_counter + 1)
  | Some _ => st
  end.

Definition with_speaker (seg : segment) (label : string) : segment :=
  {| speaker := label;
     start_time := start_time seg;
     end_time := end_time seg;
     duration := duration seg;
     seg_text := seg_text seg |}.

(** The second loop indexes [speaker_map] with every segment's speaker; the
    first loop has entered each of them ([speaker_map_covers] below), so the
    total lookup never falls back. *)
Definition normalize_speaker_labels (segments : list segment)
    : list segment :=
  match segments with
  | [] => []
  | _ =>
      let '(speaker_map, _) := fold_left label_step segments (∅, 1) in
      (λ seg, with_speaker seg (speaker_map !!! speaker seg)) <$> segments
  end.

(** The distinct speakers of a list, in order of first appearance: what the
    specification numbers from 1. *)
Fixpoint first_appearances (seen : list string) (speakers : list string)
    : list string :=
  match speakers with
  | [] => []
  | s :: rest =>
      if bool_decide (s ∈ seen) then first_appearances seen rest
      else s :: first_appearances (s :: seen) rest
  end.

(** The provider's transcript response, as far as the code reads it. *)
Record transcript_json := {
  tj_tokens : option (list token);
  tj_text : option text;
}.

(** The dict [transcribe_audio] returns, without its [metadata] entry (file
    name, file size and the sorted speaker labels). *)
Record transcription := {
  tr_transcription : text;
  tr_speaker_segments : list segment;
  tr_duration : float;
  tr_speaker_count : nat;
}.

(** Steps 4 to the end of the [try] block of [transcribe_audio], from the
    fetched transcript response on. *)
Definition transcribe_body (response : transcript_json)
    (merge_threshold : float) (normalize_speakers : bool)
    : result transcription :=
  let tokens := default [] (tj_tokens response) in
  if nonempty tokens then
    let joined :=
      concat ((λ tok, sanitize_token_text (tok_text tok))
                <$> filter (λ tok, nonempty (default [] (tok_text tok)) = true)
                      tokens) in
    let full_transcript :=
      sanitize_text
        (Some (if nonempty (default [] (tj_text response))
               then default [] (tj_text response) else joined)) in
    let segments := build_segments merge_threshold tokens in
    let '(speaker_segments, total_duration) := convert_segments segments in
    let speaker_segments :=
      merge_consecutive_speaker_segments speaker_segments in
    let speaker_segments :=
      if normalize_speakers then normalize_speaker_labels speaker_segments
      else speaker_segments in
    let unique_speakers : gset string :=
      list_to_set (speaker <$> speaker_segments) in
    Return {| tr_transcription := full_transcript;
              tr_speaker_segments := speaker_segments;
              tr_duration := py_round total_duration 2;
              tr_speaker_count := size unique_speakers |}
  else
    Raise (ValueError "Soniox transcript response did not contain any tokens").

(** The last handler of the [try] block, [except Exception as e], wraps
    whatever the body raised. *)
Definition transcribe_audio (response : transcript_json)
    (merge_threshold : float) (normalize_speakers : bool)
    : result transcription :=
  match transcribe_body response merge_threshold normalize_speakers with
  | inl e => Raise (ValueError ("Transcription failed: " +:+ exn_message e))
  | inr r => Return r
  end.

(** * The scoring entry point *)

(** The request body of the scoring endpoint. *)
Record transcript_data := {
  td_transcription : option text;
  td_speaker_segments : option (list segment);
}.

Section EntryPoint.
(** The collaborators of [score_transcript_main]: the rubric and
    knowledge-base loaders and the oracle call, each of which returns or
    raises. *)
Context (OPENAI_MODEL : string).
Context {reckoner faq : Type}.
Context (load_rubric_v2 : option string → result rubric).
Context (load_project_reckoner : result reckoner).
Context (load_faq_data : result faq).
Context (score_transcript_v2 :
           text → rubric → reckoner → faq → list segment →
           result (gmap string judgment)).

Definition score_transcript_main (data : transcript_data)
    (rubric_path : option string) : result report :=
  let transcript := default [] (td_transcription data) in
  if negb (nonempty transcript) || negb (nonempty (strip transcript)) then
    Raise (ValueError "Transcript is empty or missing")
  else
    match load_rubric_v2 rubric_path with
    | inl e => Raise e
    | inr rb =>
    match load_project_reckoner with
    | inl e => Raise e
    | inr reckoner_data =>
    match load_faq_data with
    | inl e => Raise e
    | inr faq_data =>
        let speaker_segments := default [] (td_speaker_segments data) in
        match score_transcript_v2 transcript rb reckoner_data faq_data
                speaker_segments with
        | inl e => Raise e
        | inr scoring_results =>
            Return (compile_final_report OPENAI_MODEL scoring_results rb
                      (Z.of_nat (length transcript))
                      (Z.of_nat (length speaker_segments)))
        end
    end end end.
End EntryPoint.

(** * Vocabulary of the properties *)

(** [clamp(x, lo, hi)] *)
Definition clamp (x lo hi : Z) : Z := Z.max lo (Z.min x hi).

(** The raw score the compiler reads for a criterion: the oracle's [score],
    or [0] when the criterion or its score is missing. *)
Definition raw_score (scoring_results : gmap string judgment)
    (param_id : option string) : Z :=
  get_score (get_result scoring_results param_id).

(** The sum of the resolved scores of the non-fatal entries of a list. *)
Definition nonfatal_sum (ds : list param_detail) : Z :=
  foldr Z.add 0 (pd_score <$> filter (λ d, pd_is_fatal d = false) ds).

(** The rubric's sub-parameters, in declaration order. *)
Definition rubric_sub_parameters (rb : rubric) : list sub_parameter :=
  concat ((λ cat, default [] (cat_sub_parameters cat))
            <$> default [] (rb_categories rb)).

(** What an entry of the report owes to the rubric line and the raw score it
    was compiled from. *)
Record compiled (scoring_results : gmap string judgment)
    (sub : sub_parameter) (d : param_detail) : Prop := {
  compiled_id : pd_id d = sp_id sub;
  compiled_max : pd_max_points d = default 0 (sp_max_points sub);
  compiled_fatal :
    pd_is_fatal d = true ↔ ∃ k, sp_id sub = Some k ∧ k ∈ fatal_param_ids;
  compiled_na :
    pd_is_na d = true ↔ raw_score scoring_results (sp_id sub) = -1;
  compiled_na_full :
    raw_score scoring_results (sp_id sub) = -1 →
    pd_score d = default 0 (sp_max_points sub);
  compiled_floor :
    raw_score scoring_results (sp_id sub) < -1 → pd_score d = 0;
  compiled_cap :
    0 ≤ raw_score scoring_results (sp_id sub) →
    default 0 (sp_max_points sub) < raw_score scoring_results (sp_id sub) →
    pd_score d = default 0 (sp_max_points sub);
  compiled_in_range :
    0 ≤ raw_score scoring_results (sp_id sub) ≤ default 0 (sp_max_points sub) →
    pd_score d = raw_score scoring_results (sp_id sub);
}.

(** A category of the report whose awarded score is the non-fatal sum of
    its own parameters, compiled from some rubric category of that id. *)
Definition category_compiled (scoring_results : gmap string judgment)
    (cats : list category) (cid : option string) (cs : category_score)
    : Prop :=
  ∃ cat, cat ∈ cats ∧ cat_id cat = cid
         ∧ cs_max_points cs = default 0 (cat_max_points cat)
         ∧ Forall2 (compiled scoring_results)
             (default [] (cat_sub_parameters cat)) (cs_parameters cs)
         ∧ cs_score cs = nonfatal_sum (cs_parameters cs).

(** No two neighbours of a segment list have the same speaker. *)
Fixpoint no_adjacent_repeat (l : list segment) : Prop :=
  match l with
  | a :: (b :: _) as rest => speaker a ≠ speaker b ∧ no_adjacent_repeat rest
  | _ => True
  end.

(** The merge loop read as a recursion on the segments that remain. *)
Fixpoint merge_from (current : segment) (rest : list segment)
    : list segment :=
  match rest with
  | [] => [current]
  | next_seg :: rest' =>
      if bool_decide (speaker current = speaker next_seg)
      then merge_from (absorb current next_seg) rest'
      else current :: merge_from next_seg rest'
  end.

(** What the token loop hands over at the end of the stream. *)
Definition flush (st : list token_segment * option token_segment)
    : list token_segment :=
  match st.2 with
  | Some cur => st.1 ++ [cur]
  | None => st.1
  end.

(** The label the normalizer gives the speaker at position [k] of the list
    of first appearances. *)
Definition ordinal_label (k : nat) : string :=
  ("Speaker " +:+ pretty (Z.of_nat k + 1))%string.

(** * Sample inputs *)

Definition scored (z : Z) : judgment :=
  {| j_score := Some z; j_rationale := None; j_evidence := None;
     j_validation_notes := None |}.

Definition line (id : string) (max_points : Z) : sub_parameter :=
  {| sp_id := Some id; sp_name := None; sp_max_points := Some max_points |}.

(** A rubric of one category with a fatal and a non-fatal line. *)
Definition opening_rubric : rubric :=
  {| rb_title := None;
     rb_total_points := Some 100;
     rb_categories :=
       Some [ {| cat_id := Some "opening"%string;
                 cat_name := Some "Opening"%string;
                 cat_max_points := Some 15;
                 cat_sub_parameters :=
                   Some [ line "brand_intro" 10; line "greeting" 5 ] |} ] |}.

(** Judgments for the four fatal ids and for [greeting], with the given
    score for [brand_intro] and full marks elsewhere. *)
Definition payload_with_brand_intro (brand_intro : Z) : gmap string judgment :=
  <[ "brand_intro"%string := scored brand_intro ]>
    (<[ "project_knowledge_accuracy"%string := scored 5 ]>
       (<[ "professional"%string := scored 5 ]>
          (<[ "tone_voice_modulation"%string := scored 5 ]>
             (<[ "greeting"%string := scored 5 ]> ∅)))).

(** The same payload with no judgment at all for [brand_intro]. *)
Definition payload_without_brand_intro : gmap string judgment :=
  delete "brand_intro"%string (payload_with_brand_intro 10).

(** A token that carries seconds. *)
Definition spoken (who said : string) (start stop : float) : token :=
  {| tok_text := Some (text_of_string said);
     tok_speaker := Some who;
     tok_start_time := Some start;
     tok_start_ms := None;
     tok_end_time := Some stop;
     tok_end_ms := None |}.

(** Scenario 1 of the specification; [12 / 10] is the binary64 number
    nearest to 1.2. *)
Definition greeting_tokens : list token :=
  [ spoken "A" "Hi " 0 1;
    spoken "A" "there" (PrimFloat.div 12 10) 1.5;
    spoken "B" "Hello" 2 2.5 ].

(** One speaker, two tokens four seconds apart. *)
Definition paused_tokens : list token :=
  [ spoken "A" "Hi" 0 1; spoken "A" "there" 5 6 ].

Definition heard (who : string) : segment :=
  {| speaker := who; start_time := 0; end_time := 1; duration := 1;
     seg_text := text_of_string "ok" |}.

(** Scenario 2 of the specification. *)
Definition raw_speakers : list segment :=
  [ heard "S2"; heard "S2"; heard "S5"; heard "S2" ].

Definition no_rubric (path : option string) : result rubric :=
  Raise (FileNotFoundError "Rubric file not found").

Definition silent_oracle (transcript : text) (rb : rubric) (reckoner faq : unit)
    (segments : list segment) : result (gmap string judgment) :=
  Return ∅.

(** * Vocabulary of the further properties *)

(** A code point that [_clean_unicode] lets through. *)
Definition kept_char (c : N) : bool :=
  negb (c =? 0xFFFD)%N && negb (is_zero_width c) && negb (is_surrogate c)
  && (c <? 0x110000)%N.

(** Text without a character that [_clean_unicode] removes. *)
Definition clean (t : text) : Prop := Forall (λ c, kept_char c = true) t.

(** Text that neither starts nor ends with white space. *)
Definition trimmed (t : text) : Prop :=
  (∀ c, head t = Some c → is_space c = false)
  ∧ (∀ c, last t = Some c → is_space c = false).

(** Text as the conversion loop leaves it: not empty, clean and trimmed. *)
Definition tidy (t : text) : Prop := t ≠ [] ∧ clean t ∧ trimmed t.

(** A list with every run of equal neighbours reduced to its first entry. *)
Fixpoint collapse (l : list string) : list string :=
  match l with
  | a :: (b :: _) as rest =>
      if bool_decide (a = b) then collapse rest else a :: collapse rest
  | _ => l
  end.

(** The texts of a list joined by single spaces. *)
Fixpoint spaced (ts : list text) : text :=
  match ts with
  | [] => []
  | [t] => t
  | t :: rest => t ++ text_of_string " " ++ spaced rest
  end.

(** The line [check_fatal_parameters] writes for a fatal id that failed. *)
Definition fatal_entry (item : string * string) : string :=
  (item.2 +:+ " (" +:+ item.1 +:+ ")")%string.

(** The fatal ids whose raw score is 0, as the gate lists them. *)
Definition failed_entries (scoring_results : gmap string judgment)
    : list string :=
  fatal_entry
    <$> filter (λ item, raw_score scoring_results (Some item.1) = 0)
          fatal_param_mapping.

(** The sum of the maxima of the non-fatal entries of a list. *)
Definition nonfatal_budget (ds : list param_detail) : Z :=
  foldr Z.add 0 (pd_max_points <$> filter (λ d, pd_is_fatal d = false) ds).

(** * Discrete scoring ([api/scoring.py]) *)

(** One level of a criterion of the version 1 rubric. *)
Record level := {
  lv_label : text;
  lv_points : Z;
  lv_descriptors : list text;
}.

Record criterion := {
  cr_id : string;
  cr_name : text;
  cr_max_points : Z;
  cr_levels : list level;
}.

(** The version 1 rubric: [criteria] is read by index, [title] and
    [total_points] with [get]. *)
Record rubric_v1 := {
  r1_title : option string;
  r1_total_points : option Z;
  r1_criteria : list criterion;
}.

(** An entry of the version 1 [criteria_scores]. *)
Record criterion_score := {
  c1_id : string;
  c1_name : text;
  c1_max_points : Z;
  c1_points_awarded : Z;
  c1_score : Z;
  c1_response : text;
  c1_rationale : text;
}.

(** What [score_with_openai] returns. *)
Record scoring_data := {
  sd_answers : option (gmap string text);
  sd_rationales : option (gmap string text);
}.

Record metadata_v1 := {
  m1_model_used : string;
  m1_transcript_length : Z;
  m1_num_segments : Z;
}.

Record report_v1 := {
  v1_rubric_title : string;
  v1_total_points : Z;
  v1_total_score : Z;
  v1_percentage : number;
  v1_criteria_scores : list criterion_score;
  v1_yes_no_na_responses : gmap string text;
  v1_metadata : metadata_v1;
}.

(** [sep.join(parts)] on texts. *)
Fixpoint join_text (sep : text) (parts : list text) : text :=
  match parts with
  | [] => []
  | [t] => t
  | t :: rest => t ++ sep ++ join_text sep rest
  end.

(** What the chat completion call and [json.loads] end in: a JSON object, a
    payload that does not parse, or any other exception. *)
Inductive chat_outcome (value : Type) :=
  | ChatReturned (raw : gmap string value)
  | ChatInvalidJSON (msg : string)
  | ChatFailed (msg : string).
Arguments ChatReturned {value} raw.
Arguments ChatInvalidJSON {value} msg.
Arguments ChatFailed {value} msg.

Section Discrete.
(** [str.lower] and [str.upper]. *)
Context (lower upper : text → text).
(** The values of the oracle's JSON object: [str(v)], the truth value of
    [v], and the dict [v] is when [isinstance(v, dict)]. *)
Context {value : Type}.
Context (str_of : value → text) (truthy : value → bool).
Context (as_dict : value → option (gmap string value)).

(** [answer] unless it is [not in ["yes", "no", "na"]], then ["na"]. *)
Definition valid_answer (answer : text) : text :=
  if bool_decide (answer ∈ [ text_of_string "yes"; text_of_string "no";
                             text_of_string "na" ])
  then answer
  else text_of_string "na".

(** The structured format: the answer and the rationale read from one
    entry of the response. *)
Definition structured_answer (entry : gmap string value) : text * text :=
  let answer :=
    lower (match entry !! "answer"%string with
           | Some v => str_of v
           | None => text_of_string "na"
           end) in
  let rationale_parts :=
    match entry !! "rationale"%string with
    | Some v => if truthy v then [strip (str_of v)] else []
    | None => []
    end in
  let rationale_parts :=
    match entry !! "evidence_snippet"%string with
    | Some v =>
        if truthy v
        then rationale_parts ++ [text_of_string "Evidence: " ++ strip (str_of v)]
        else rationale_parts
    | None => rationale_parts
    end in
  (answer, strip (join_text (text_of_string " ") rationale_parts)).

(** The body of the loop over [criterion_ids] in the structured format,
    before the validity check. *)
Definition structured_entry (raw : gmap string value) (cid : string)
    : text * text :=
  match raw !! cid with
  | None => structured_answer ∅
  | Some entry =>
      match as_dict entry with
      | Some d => structured_answer d
      | None =>
          (lower (if truthy entry then str_of entry else text_of_string "na"),
           [])
      end
  end.

(** The same in the legacy format of plain values. *)
Definition legacy_entry (raw : gmap string value) (cid : string)
    : text * text :=
  (lower (match raw !! cid with
          | Some v => if truthy v then str_of v else text_of_string "na"
          | None => text_of_string "na"
          end),
   []).

(** One turn of either loop: both dicts get an entry for [cid]. *)
Definition record_answer (entry : string → text * text) (cid : string)
    (acc : gmap string text * gmap string text)
    : gmap string text * gmap string text :=
  (<[ cid := valid_answer (entry cid).1 ]> acc.1,
   <[ cid := (entry cid).2 ]> acc.2).

(** The last loop: an id still without an answer gets ["na"]. *)
Definition fill_missing (cid : string)
    (acc : gmap string text * gmap string text)
    : gmap string text * gmap string text :=
  (<[ cid := text_of_string "na" ]> acc.1, <[ cid := [] ]> acc.2).

(** [score_with_openai] from the parsed response on.  The loops run over
    the set [criterion_ids]; the order in which a set is visited does not
    show in the dicts they fill. *)
Definition parse_scoring_response (raw : gmap string value) (rb : rubric_v1)
    : scoring_data :=
  let criterion_ids : gset string := list_to_set (cr_id <$> r1_criteria rb) in
  let structured :=
    bool_decide (map_Forall (λ _ v, is_Some (as_dict v)) raw) in
  let entry := if structured then structured_entry raw else legacy_entry raw in
  let filled := set_fold (record_answer entry) (∅, ∅) criterion_ids in
  let missing_ids := criterion_ids ∖ dom filled.1 in
  let filled := set_fold fill_missing filled missing_ids in
  {| sd_answers := Some filled.1; sd_rationales := Some filled.2 |}.

Definition score_with_openai (api_key_set : bool)
    (chat : chat_outcome value) (rb : rubric_v1) : result scoring_data :=
  if negb api_key_set then
    Raise (ValueError
             "AZURE_KEY or OPENAI_API_KEY environment variable is not set")
  else
    match chat with
    | ChatReturned raw => Return (parse_scoring_response raw rb)
    | ChatInvalidJSON msg =>
        Raise (ValueError ("Invalid JSON response from OpenAI: " +:+ msg))
    | ChatFailed msg => Raise (ValueError ("OpenAI API error: " +:+ msg))
    end.

(** The loop over a criterion's levels, left at the first level whose
    lowered label is the response. *)
Fixpoint match_level (response : text) (levels : list level) : Z * text :=
  match levels with
  | [] => (0, [])
  | lv :: rest =>
      if bool_decide (lower (lv_label lv) = response)
      then (lv_points lv,
            text_of_string "Scored '" ++ upper response
              ++ text_of_string "': "
              ++ join_text (text_of_string ", ") (lv_descriptors lv))
      else match_level response rest
  end.

(** The body of the loop of [convert_yes_no_na_to_scores]. *)
Definition convert_criterion (yes_no_na_scores : gmap string text)
    (rationales : option (gmap string text)) (c : criterion)
    : criterion_score :=
  let criterion_id := cr_id c in
  let response :=
    lower (default (text_of_string "na") (yes_no_na_scores !! criterion_id)) in
  let '(points_awarded, base_rationale) := match_level response (cr_levels c) in
  let model_reason :=
    match rationales with
    | Some m =>
        if bool_decide (m = ∅) then []
        else strip (default [] (m !! criterion_id))
    | None => []
    end in
  let rationale_text :=
    if nonempty model_reason && nonempty base_rationale
    then base_rationale ++ text_of_string ". " ++ model_reason
    else if nonempty model_reason then model_reason else base_rationale in
  {| c1_id := criterion_id;
     c1_name := cr_name c;
     c1_max_points := cr_max_points c;
     c1_points_awarded := points_awarded;
     c1_score := points_awarded;
     c1_response := upper response;
     c1_rationale := rationale_text |}.

Definition convert_yes_no_na_to_scores (yes_no_na_scores : gmap string text)
    (rb : rubric_v1) (rationales : option (gmap string text))
    : list criterion_score :=
  convert_criterion yes_no_na_scores rationales <$> r1_criteria rb.

(** [sum(c['points_awarded'] for c in criteria_scores)] *)
Definition sum_points (criteria_scores : list criterion_score) : Z :=
  foldl (λ acc c, acc + c1_points_awarded c) 0 criteria_scores.

(** The collaborators of [score_transcript]: the loaders, the key and the
    chat completion call. *)
Context (OPENAI_MODEL : string) {knowledge : Type}.
Context (load_rubric : option string → result rubric_v1).
Context (load_project_knowledge : result knowledge).
Context (api_key_set : bool).
Context (chat : text → rubric_v1 → knowledge → list segment →
                chat_outcome value).

Definition score_transcript (data : transcript_data)
    (rubric_path : option string) : result report_v1 :=
  let transcript := default [] (td_transcription data) in
  if negb (nonempty transcript) || negb (nonempty (strip transcript)) then
    Raise (ValueError "Transcript is empty or missing")
  else
    match load_rubric rubric_path with
    | inl e => Raise e
    | inr rb =>
    match load_project_knowledge with
    | inl e => Raise e
    | inr project_knowledge =>
        let speaker_segments := default [] (td_speaker_segments data) in
        match score_with_openai api_key_set
                (chat transcript rb project_knowledge speaker_segments) rb with
        | inl e => Raise e
        | inr scoring =>
            let yes_no_na_scores := default ∅ (sd_answers scoring) in
            let rationales := Some (default ∅ (sd_rationales scoring)) in
            let criteria_scores :=
              convert_yes_no_na_to_scores yes_no_na_scores rb rationales in
            let total_points := default 100 (r1_total_points rb) in
            let total_score := sum_points criteria_scores in
            Return
              {| v1_rubric_title :=
                   default "Call Quality Rubric"%string (r1_title rb);
                 v1_total_points := total_points;
                 v1_total_score := total_score;
                 v1_percentage := percent total_score total_points;
                 v1_criteria_scores := criteria_scores;
                 v1_yes_no_na_responses := yes_no_na_scores;
                 v1_metadata :=
                   {| m1_model_used := OPENAI_MODEL;
                      m1_transcript_length := Z.of_nat (length transcript);
                      m1_num_segments :=
                        Z.of_nat
                          (length (default [] (td_speaker_segments data))) |} |}
        end
    end end.

End Discrete.

(** * The HTTP surface ([api/main.py]) *)

(** What an endpoint answers: a JSON body, or an [HTTPException]. *)
Inductive http_response (A : Type) :=
  | JSONResponse (content : A)
  | HTTPException (status_code : Z) (detail : string).
Arguments JSONResponse {A} content.
Arguments HTTPException {A} status_code detail.

(** The [try] block of [score_transcript_endpoint], given the two scoring
    functions: [ValueError] is answered with 400 and its message, any other
    exception with 500. *)
Definition score_transcript_endpoint (lower : text → text)
    (score_transcript_main : transcript_data → result report)
    (score_transcript : transcript_data → result report_v1)
    (version : option text) (data : transcript_data)
    : http_response (report_v1 + report) :=
  let version := lower (default (text_of_string "v2") version) in
  let outcome : result (report_v1 + report) :=
    if bool_decide (version = text_of_string "v2")
    then match score_transcript_main data with
         | inl e => inl e
         | inr r => inr (inr r)
         end
    else match score_transcript data with
         | inl e => inl e
         | inr r => inr (inl r)
         end in
  match outcome with
  | inr score_result => JSONResponse score_result
  | inl (ValueError msg) => HTTPException 400 msg
  | inl e => HTTPException 500 ("Error scoring transcript: " +:+ exn_message e)
  end.


(** * Sample inputs for discrete scoring *)

Definition greeting_criterion : criterion :=
  {| cr_id := "greeting";
     cr_name := text_of_string "Greeting";
     cr_max_points := 5;
     cr_levels :=
       [ {| lv_label := text_of_string "yes"; lv_points := 5;
            lv_descriptors := [ text_of_string "greets the customer" ] |};
         {| lv_label := text_of_string "no"; lv_points := 0;
            lv_descriptors := [ text_of_string "no greeting" ] |};
         {| lv_label := text_of_string "na"; lv_points := 5;
            lv_descriptors := [ text_of_string "not applicable" ] |} ] |}.

Definition greeting_rubric : rubric_v1 :=
  {| r1_title := None; r1_total_points := Some 5;
     r1_criteria := [ greeting_criterion ] |}.

(** A response in the legacy format whose values are plain strings. *)
Definition legacy_response : gmap string text :=
  {[ "greeting"%string := text_of_string "yes" ]}.

Definition spoken_request : transcript_data :=
  {| td_transcription := Some (text_of_string "Hello");
     td_speaker_segments := None |}.

Definition blank_request : transcript_data :=
  {| td_transcription := Some (text_of_string "  ");
     td_speaker_segments := None |}.

(** * Properties of the score compiler *)

Section FatalGate.
Context (scoring_results : gmap string judgment).

Lemma fatal_step_length acc item :
  (0 < length (fatal_step scoring_results acc item))%nat ↔
  (0 < length acc)%nat ∨ raw_score scoring_results (Some item.1) = 0.
Proof.
  destruct item as [k descr]. unfold fatal_step, raw_score. simpl.
  destruct (Z.eqb_spec (get_score (get_result scoring_results (Some k))) (-1)) as [E1|E1].
  { rewrite E1. split; [tauto | intros [H|H]; [done | lia]]. }
  destruct (Z.eqb_spec (get_score (get_result scoring_results (Some k))) 0) as [E0|E0].
  - rewrite length_app. simpl. split; [tauto | lia].
  - tauto.
Qed.

Lemma fatal_fold_length items acc :
  (0 < length (fold_left (fatal_step scoring_results) items acc))%nat ↔
  (0 < length acc)%nat
  ∨ ∃ item, item ∈ items ∧ raw_score scoring_results (Some item.1) = 0.
Proof.
  revert acc. induction items as [|item items IH]; intros acc; simpl.
  - split; [tauto | intros [H|(item & Hin & _)]; [done | by apply elem_of_nil in Hin]].
  - rewrite IH, fatal_step_length. split.
    + intros [[H|H]|(it & Hin & H)]; [tauto| |].
      * right. exists item. split; [apply list_elem_of_here | done].
      * right. exists it. split; [by apply list_elem_of_further | done].
    + intros [H|(it & Hin & H)]; [tauto|].
      apply elem_of_cons in Hin as [->|Hin]; [tauto|].
      right. by exists it.
Qed.

Lemma fatal_ids_mapping k :
  k ∈ fatal_param_ids ↔ ∃ descr, (k, descr) ∈ fatal_param_mapping.
Proof.
  unfold fatal_param_ids, fatal_param_mapping. split.
  - rewrite !elem_of_union, !elem_of_singleton.
    intros [[[->| ->]| ->]| ->]; eexists;
      repeat first [apply list_elem_of_here | apply list_elem_of_further].
  - intros [descr H]. rewrite !elem_of_cons, elem_of_nil in H.
    rewrite !elem_of_union, !elem_of_singleton.
    destruct H as [H|[H|[H|[H|[]]]]]; apply (f_equal fst) in H; simpl in H; auto.
Qed.

(** The gate triggers exactly when the raw score of one of the four fatal
    ids is 0, a missing score counting as 0. *)
Lemma check_fatal_triggers rb :
  (check_fatal_parameters scoring_results rb).1 = true ↔
  ∃ k, k ∈ fatal_param_ids ∧ raw_score scoring_results (Some k) = 0.
Proof.
  unfold check_fatal_parameters. cbn [fst].
  etrans; [apply Nat.ltb_lt|]. etrans; [apply fatal_fold_length|]. split.
  - intros [H|([k descr] & Hin & H)]; [simpl in H; lia|].
    exists k. split; [|done]. apply fatal_ids_mapping. by exists descr.
  - intros (k & Hin & H). right.
    apply fatal_ids_mapping in Hin as [descr Hin]. by exists (k, descr).
Qed.
End FatalGate.

Section CompileLoops.
Context (scoring_results : gmap string judgment).

Lemma nonfatal_sum_nil : nonfatal_sum [] = 0.
Proof. reflexivity. Qed.

Lemma nonfatal_sum_cons d ds :
  nonfatal_sum (d :: ds)
  = (if pd_is_fatal d then 0 else pd_score d) + nonfatal_sum ds.
Proof.
  unfold nonfatal_sum. rewrite filter_cons.
  destruct (decide (pd_is_fatal d = false)) as [E|E].
  - rewrite E. reflexivity.
  - destruct (pd_is_fatal d); [reflexivity | done].
Qed.

Lemma nonfatal_sum_app ds1 ds2 :
  nonfatal_sum (ds1 ++ ds2) = nonfatal_sum ds1 + nonfatal_sum ds2.
Proof.
  induction ds1 as [|d ds1 IH]; simpl.
  - rewrite nonfatal_sum_nil. lia.
  - rewrite !nonfatal_sum_cons, IH. lia.
Qed.

(** One turn of the inner loop appends one entry, compiled from the rubric
    line, and adds its score to both running sums unless it is fatal. *)
Lemma sub_param_step_inv acc sub :
  ∃ d, compiled scoring_results sub d
       ∧ sub_param_step scoring_results acc sub
         = {| pa_cat_awarded :=
                pa_cat_awarded acc + (if pd_is_fatal d then 0 else pd_score d);
              pa_total_awarded :=
                pa_total_awarded acc + (if pd_is_fatal d then 0 else pd_score d);
              pa_cat_details := pa_cat_details acc ++ [d];
              pa_detailed_scores := pa_detailed_scores acc ++ [d] |}.
Proof.
  unfold sub_param_step.
  assert (Hf : ∀ b, (b = true ↔ ∃ k, sp_id sub = Some k ∧ k ∈ fatal_param_ids) →
    match sp_id sub with
    | Some k => bool_decide (k ∈ fatal_param_ids)
    | None => false
    end = b).
  { intros b Hb. destruct (sp_id sub) as [k|] eqn:Hid.
    - destruct b.
      + apply bool_decide_eq_true. destruct Hb as [(k' & [= <-] & Hk) _]; done.
      + apply bool_decide_eq_false. intros Hk.
        assert (false = true) by (apply Hb; eauto). done.
    - destruct b; [|done]. destruct Hb as [(k' & [=] & _) _]; done. }
  fold (raw_score scoring_results (sp_id sub)).
  set (raw := raw_score scoring_results (sp_id sub)).
  set (fatal := match sp_id sub with
                | Some k => bool_decide (k ∈ fatal_param_ids)
                | None => false
                end).
  assert (Hfatal : fatal = true ↔ ∃ k, sp_id sub = Some k ∧ k ∈ fatal_param_ids).
  { destruct fatal eqn:E; subst fatal.
    - split; [intros _|done]. destruct (sp_id sub) as [k|]; [|done].
      apply bool_decide_eq_true in E. eauto.
    - split; [done|]. intros (k & Hk & Hin). rewrite Hk in E.
      apply bool_decide_eq_false in E. done. }
  clearbody fatal. clear Hf.
  destruct (Z.eqb_spec raw (-1)) as [E1|E1];
    [|destruct (Z.ltb_spec raw 0) as [E2|E2];
      [|destruct (Z.gtb_spec raw (default 0 (sp_max_points sub))) as [E3|E3]]];
    (match goal with
     | |- context [pa_cat_details acc ++ [?d]] => exists d
     end;
     split;
     [ constructor; simpl; try done; try (intros; lia);
       try (split; [done | intros; lia])
     | destruct fatal; simpl; f_equal; lia ]).
Qed.

Lemma sub_params_loop subs acc :
  ∃ ds, Forall2 (compiled scoring_results) subs ds
        ∧ fold_left (sub_param_step scoring_results) subs acc
          = {| pa_cat_awarded := pa_cat_awarded acc + nonfatal_sum ds;
               pa_total_awarded := pa_total_awarded acc + nonfatal_sum ds;
               pa_cat_details := pa_cat_details acc ++ ds;
               pa_detailed_scores := pa_detailed_scores acc ++ ds |}.
Proof.
  revert acc. induction subs as [|sub subs IH]; intros acc; simpl.
  - exists []. split; [constructor|].
    rewrite nonfatal_sum_nil, !app_nil_r, !Z.add_0_r. by destruct acc.
  - destruct (sub_param_step_inv acc sub) as (d & Hd & ->).
    destruct (IH {| pa_cat_awarded :=
                      pa_cat_awarded acc + (if pd_is_fatal d then 0 else pd_score d);
                    pa_total_awarded :=
                      pa_total_awarded acc + (if pd_is_fatal d then 0 else pd_score d);
                    pa_cat_details := pa_cat_details acc ++ [d];
                    pa_detailed_scores := pa_detailed_scores acc ++ [d] |})
      as (ds & Hds & ->).
    exists (d :: ds). split; [by constructor|]. simpl.
    rewrite nonfatal_sum_cons, <- !app_assoc. simpl. f_equal; lia.
Qed.

Lemma category_step_inv acc cat :
  ∃ ds, Forall2 (compiled scoring_results)
          (default [] (cat_sub_parameters cat)) ds
        ∧ category_step scoring_results acc cat
          = {| ca_total_awarded := ca_total_awarded acc + nonfatal_sum ds;
               ca_category_scores :=
                 <[ cat_id cat :=
                      {| cs_name := cat_name cat;
                         cs_max_points := default 0 (cat_max_points cat);
                         cs_score := nonfatal_sum ds;
                         cs_percentage :=
                           percent (nonfatal_sum ds)
                             (default 0 (cat_max_points cat));
                         cs_parameters := ds |} ]>
                   (ca_category_scores acc);
               ca_detailed_scores := ca_detailed_scores acc ++ ds |}.
Proof.
  unfold category_step.
  destruct (sub_params_loop (default [] (cat_sub_parameters cat))
              {| pa_cat_awarded := 0;
                 pa_total_awarded := ca_total_awarded acc;
                 pa_cat_details := [];
                 pa_detailed_scores := ca_detailed_scores acc |})
    as (ds & Hds & ->).
  exists ds. split; [done|]. simpl. reflexivity.
Qed.

Lemma categories_loop cats acc :
  ∃ ds, Forall2 (compiled scoring_results)
          (concat ((λ cat, default [] (cat_sub_parameters cat)) <$> cats)) ds
        ∧ ca_total_awarded (fold_left (category_step scoring_results) cats acc)
          = ca_total_awarded acc + nonfatal_sum ds
        ∧ ca_detailed_scores (fold_left (category_step scoring_results) cats acc)
          = ca_detailed_scores acc ++ ds
        ∧ ∀ cid cs,
            ca_category_scores
              (fold_left (category_step scoring_results) cats acc) !! cid
            = Some cs →
            ca_category_scores acc !! cid = Some cs
            ∨ category_compiled scoring_results cats cid cs.
Proof.
  revert acc. induction cats as [|cat cats IH]; intros acc; simpl.
  - exists []. rewrite nonfatal_sum_nil, app_nil_r, Z.add_0_r.
    repeat split; [constructor | auto].
  - destruct (category_step_inv acc cat) as (ds1 & Hds1 & ->).
    match goal with
    | |- context [fold_left _ cats ?acc'] =>
        destruct (IH acc') as (ds2 & Hds2 & Htot & Hdet & Hcat)
    end.
    simpl in Htot, Hdet, Hcat.
    exists (ds1 ++ ds2). split; [by apply Forall2_app|].
    rewrite Htot, Hdet, nonfatal_sum_app, app_assoc.
    split; [lia|]. split; [done|].
    intros cid cs Hcs. destruct (Hcat cid cs Hcs) as [Hold|Hnew].
    + destruct (decide (cat_id cat = cid)) as [Heq|Hne].
      * rewrite Heq, lookup_insert_eq in Hold. injection Hold as <-.
        right. exists cat. simpl.
        repeat split; [apply list_elem_of_here | done | done].
      * rewrite lookup_insert_ne in Hold by done. by left.
    + right. destruct Hnew as (cat' & Hin & Hrest).
      exists cat'. split; [by apply list_elem_of_further | done].
Qed.
End CompileLoops.

Section Report.
Context (model : string) (scoring_results : gmap string judgment).
Context (rb : rubric) (transcript_length num_segments : Z).

Local Abbreviation the_report :=
  (compile_final_report model scoring_results rb transcript_length
     num_segments) (only parsing).

(** The fields of the report in terms of the gate and the two loops. *)
Lemma report_fields :
  md_fatal_parameter_failed (metadata the_report)
  = (check_fatal_parameters scoring_results rb).1
  ∧ total_points the_report = default 100 (rb_total_points rb)
  ∧ criteria_scores the_report
    = ca_detailed_scores (compile_categories scoring_results rb)
  ∧ total_score the_report
    = (if (check_fatal_parameters scoring_results rb).1 then 0
       else ca_total_awarded (compile_categories scoring_results rb))
  ∧ percentage the_report
    = percent (total_score the_report) (total_points the_report).
Proof.
  unfold compile_final_report.
  destruct (check_fatal_parameters scoring_results rb) as [gate failed].
  simpl. done.
Qed.

Lemma compile_categories_inv :
  Forall2 (compiled scoring_results) (rubric_sub_parameters rb)
    (ca_detailed_scores (compile_categories scoring_results rb))
  ∧ ca_total_awarded (compile_categories scoring_results rb)
    = nonfatal_sum (ca_detailed_scores (compile_categories scoring_results rb))
  ∧ ∀ cid cs,
      ca_category_scores (compile_categories scoring_results rb) !! cid
      = Some cs →
      category_compiled scoring_results (default [] (rb_categories rb)) cid cs.
Proof.
  unfold compile_categories, rubric_sub_parameters.
  destruct (categories_loop scoring_results (default [] (rb_categories rb))
              {| ca_total_awarded := 0; ca_category_scores := ∅;
                 ca_detailed_scores := [] |})
    as (ds & Hds & Htot & Hdet & Hcat).
  simpl in Htot, Hdet, Hcat. rewrite Htot, Hdet. simpl.
  split; [done|]. split; [done|].
  intros cid cs Hcs. destruct (Hcat cid cs Hcs) as [Hold|Hnew]; [|done].
  by rewrite lookup_empty in Hold.
Qed.

Lemma report_entries_compiled :
  Forall2 (compiled scoring_results) (rubric_sub_parameters rb)
    (criteria_scores the_report).
Proof.
  destruct report_fields as (_ & _ & -> & _).
  apply compile_categories_inv.
Qed.

(** A raw score of 0 for one of the four fatal ids zeroes the total. *)
Lemma raw_zero_forces_zero k :
  k ∈ fatal_param_ids → raw_score scoring_results (Some k) = 0 →
  md_fatal_parameter_failed (metadata the_report) = true
  ∧ total_score the_report = 0.
Proof.
  intros Hk Hraw.
  assert (Hgate : (check_fatal_parameters scoring_results rb).1 = true)
    by (apply check_fatal_triggers; eauto).
  destruct report_fields as (-> & _ & _ & -> & _).
  by rewrite Hgate.
Qed.
(** Fatal dominance where the gate and the report agree: a fatal entry with
    a resolved score of 0 that is not NA zeroes the total, provided its raw
    score was not negative and its maximum is positive. *)
Lemma resolved_zero_forces_zero i sub d :
  rubric_sub_parameters rb !! i = Some sub →
  criteria_scores the_report !! i = Some d →
  pd_is_fatal d = true → pd_is_na d = false → pd_score d = 0 →
  0 ≤ raw_score scoring_results (sp_id sub) → 0 < pd_max_points d →
  total_score the_report = 0.
Proof.
  intros Hsub Hd Hfatal Hna Hzero Hraw Hmax.
  pose proof report_entries_compiled as Hall.
  pose proof (Forall2_lookup_lr _ _ _ _ _ _ Hall Hsub Hd) as Hc.
  destruct Hc as [_ Hm Hf _ _ _ Hcap Hin].
  apply Hf in Hfatal as (k & Hk & Hink).
  rewrite Hk in *.
  apply (raw_zero_forces_zero k Hink).
  destruct (Z_lt_le_dec (default 0 (sp_max_points sub))
              (raw_score scoring_results (Some k))) as [Hbig|Hsmall].
  - rewrite Hcap in Hzero by done. lia.
  - rewrite Hin in Hzero by lia. done.
Qed.

End Report.

(** C2.  Fatal exclusion: an entry of the report is flagged fatal exactly
    when its id is one of the four fatal ids; the total is 0 when the gate
    triggered and otherwise the sum of the resolved scores of the non-fatal
    entries, so a fatal entry adds nothing whatever its score; and every
    category's awarded score is the sum over its own non-fatal entries. *)
Theorem fatal_points_never_counted (model : string)
    (scoring_results : gmap string judgment) (rb : rubric)
    (transcript_length num_segments : Z) :
  let r := compile_final_report model scoring_results rb transcript_length
             num_segments in
  Forall (λ d, pd_is_fatal d = true
               ↔ ∃ k, pd_id d = Some k ∧ k ∈ fatal_param_ids)
    (criteria_scores r)
  ∧ total_score r
    = (if md_fatal_parameter_failed (metadata r) then 0
       else nonfatal_sum (criteria_scores r))
  ∧ ∀ cid cs,
      ca_category_scores (compile_categories scoring_results rb) !! cid
      = Some cs →
      cs_score cs = nonfatal_sum (cs_parameters cs)
      ∧ Forall (λ d, pd_is_fatal d = true
                     ↔ ∃ k, pd_id d = Some k ∧ k ∈ fatal_param_ids)
          (cs_parameters cs).
Proof.
  intros r.
  assert (Hflag : ∀ subs ds,
    Forall2 (compiled scoring_results) subs ds →
    Forall (λ d, pd_is_fatal d = true
                 ↔ ∃ k, pd_id d = Some k ∧ k ∈ fatal_param_ids) ds).
  { intros subs ds H. induction H as [|sub d subs ds Hd _ IH]; constructor; [|done].
    rewrite (compiled_id _ _ _ Hd). apply (compiled_fatal _ _ _ Hd). }
  destruct (report_fields model scoring_results rb transcript_length num_segments)
    as (Hgate & _ & Hcrit & Htot & _).
  destruct (compile_categories_inv scoring_results rb) as (Hall & Hsum & Hcat).
  fold r in Hgate, Hcrit, Htot.
  repeat split.
  - rewrite Hcrit. by eapply Hflag.
  - rewrite Htot, Hgate, Hcrit, Hsum. done.
  - destruct (Hcat cid cs H) as (cat & _ & _ & _ & _ & Hscore). done.
  - destruct (Hcat cid cs H) as (cat & _ & _ & _ & Hps & _). by eapply Hflag.
Qed.

Lemma fatal_points_never_counted_witness :
  let r := compile_final_report "gpt-4o-mini" (payload_with_brand_intro 10)
             opening_rubric 0 0 in
  md_fatal_parameter_failed (metadata r) = false
  ∧ total_score r = nonfatal_sum (criteria_scores r)
  ∧ total_score r = 5.
Proof.
  intros r.
  destruct (fatal_points_never_counted "gpt-4o-mini"
              (payload_with_brand_intro 10) opening_rubric 0 0)
    as (_ & Htotal & _).
  fold r in Htotal.
  assert (Hgate : md_fatal_parameter_failed (metadata r) = false)
    by (by vm_compute).
  rewrite Hgate in Htotal.
  split; [exact Hgate|]. split; [exact Htotal|]. by vm_compute.
Defined.

(** C3.  Score resolution: the entries of the report are, in order, those of
    the rubric's sub-parameters; for a line with maximum [m] and raw score
    [raw], [is_na] holds exactly when [raw] is -1, an NA entry scores [m],
    and any other entry scores [clamp raw 0 m]: 0 for a negative raw score,
    [m] for one above [m].  The report is produced for every payload. *)
Theorem score_entry_resolution (model : string)
    (scoring_results : gmap string judgment) (rb : rubric)
    (transcript_length num_segments : Z) :
  Forall2
    (λ sub d,
       let m := default 0 (sp_max_points sub) in
       let raw := raw_score scoring_results (sp_id sub) in
       pd_id d = sp_id sub
       ∧ pd_max_points d = m
       ∧ (pd_is_na d = true ↔ raw = -1)
       ∧ (pd_is_na d = true → pd_score d = m)
       ∧ (pd_is_na d = false → raw < 0 → pd_score d = 0)
       ∧ (pd_is_na d = false → 0 ≤ raw → m < raw → pd_score d = m)
       ∧ (pd_is_na d = false → 0 ≤ m → pd_score d = clamp raw 0 m))
    (rubric_sub_parameters rb)
    (criteria_scores
       (compile_final_report model scoring_results rb transcript_length
          num_segments)).
Proof.
  eapply Forall2_impl; [apply report_entries_compiled|].
  intros sub d [Hid Hmax Hfatal Hna Hfull Hfloor Hcap Hin]. simpl.
  assert (Hnot : pd_is_na d = false → raw_score scoring_results (sp_id sub) ≠ -1).
  { intros E Hraw. apply Hna in Hraw. congruence. }
  split; [done|]. split; [done|]. split; [done|].
  split; [intros E; apply Hfull; by apply Hna|].
  split; [intros E Hneg; apply Hfloor; specialize (Hnot E); lia|].
  split; [intros E Hpos Hbig; by apply Hcap|].
  { intros E Hm. specialize (Hnot E). unfold clamp.
    destruct (Z_lt_le_dec (raw_score scoring_results (sp_id sub)) 0) as [Hneg|Hpos].
    + rewrite Hfloor by lia. lia.
    + destruct (Z_lt_le_dec (default 0 (sp_max_points sub))
                  (raw_score scoring_results (sp_id sub))) as [Hbig|Hsmall].
      * rewrite Hcap by lia. lia.
      * rewrite Hin by lia. lia. }
Qed.

Lemma score_entry_resolution_witness :
  ∃ d, criteria_scores
         (compile_final_report "gpt-4o-mini" (payload_with_brand_intro (-2))
            opening_rubric 0 0) !! 0%nat = Some d
       ∧ pd_is_na d = false
       ∧ pd_score d = clamp (-2) 0 10.
Proof.
  pose proof (score_entry_resolution "gpt-4o-mini"
                (payload_with_brand_intro (-2)) opening_rubric 0 0) as Hall.
  apply (Forall2_lookup_l _ _ _ 0%nat (line "brand_intro" 10)) in Hall
    as (d & Hd & Hrel); [|reflexivity].
  exists d. split; [exact Hd|].
  assert (Hraw : raw_score (payload_with_brand_intro (-2))
                   (sp_id (line "brand_intro" 10)) = -2) by (by vm_compute).
  cbv beta zeta in Hrel. rewrite Hraw in Hrel.
  destruct Hrel as (_ & _ & Hna & _ & _ & _ & Hclamp).
  assert (Hnot : pd_is_na d = false).
  { destruct (pd_is_na d); [|reflexivity].
    assert (-2 = -1) by (by apply Hna). lia. }
  split; [exact Hnot|]. apply Hclamp; [exact Hnot | simpl; lia].
Defined.

(** C1.  The report compiled from a payload that scores the fatal criterion
    [brand_intro] at -2: the entry is floored to a resolved score of 0, is
    fatal and is not NA, yet the gate stays shut and the total is 5. *)
Theorem floored_fatal_score_passes_gate :
  let r := compile_final_report "gpt-4o-mini" (payload_with_brand_intro (-2))
             opening_rubric 0 0 in
  (∃ d, d ∈ criteria_scores r
        ∧ pd_id d = Some "brand_intro"%string
        ∧ pd_is_fatal d = true ∧ pd_is_na d = false ∧ pd_score d = 0)
  ∧ md_fatal_parameter_failed (metadata r) = false
  ∧ total_score r = 5.
Proof.
  intros r.
  assert (Hentries : pd_score <$> criteria_scores r = [0; 5])
    by (vm_compute; reflexivity).
  destruct (criteria_scores r) as [|d ds] eqn:Hr; [discriminate|].
  split.
  - exists d. split; [apply list_elem_of_here|].
    assert (Hd : criteria_scores r !! 0%nat = Some d) by (by rewrite Hr).
    vm_compute in Hd. injection Hd as <-. done.
  - split; vm_compute; reflexivity.
Qed.

(** C8.  Percentage: the report's [total_points] is the rubric's declared
    budget (100 when it declares none) whatever the payload, gate or no
    gate; for a budget that is not negative the percentage is 0 when the
    budget is 0 and otherwise [round(total_score / total_points * 100, 2)]. *)
Theorem percentage_of_total (model : string)
    (scoring_results : gmap string judgment) (rb : rubric)
    (transcript_length num_segments : Z) :
  let r := compile_final_report model scoring_results rb transcript_length
             num_segments in
  0 ≤ total_points r →
  total_points r = default 100 (rb_total_points rb)
  ∧ (∀ tp, rb_total_points rb = Some tp → total_points r = tp)
  ∧ (∀ other_results,
       total_points
         (compile_final_report model other_results rb transcript_length
            num_segments)
       = total_points r)
  ∧ percentage r
    = (if total_points r =? 0 then Int 0
       else Float (py_round
                     (PrimFloat.mul
                        (int_truediv (total_score r) (total_points r))
                        (float_of_int 100))
                     2)).
Proof.
  intros r Hbudget.
  destruct (report_fields model scoring_results rb transcript_length num_segments)
    as (_ & Htp & _ & _ & Hpct).
  fold r in Htp, Hpct.
  split; [done|]. split.
  { intros tp Hdecl. by rewrite Htp, Hdecl. }
  split.
  { intros other. rewrite Htp.
    by destruct (report_fields model other rb transcript_length num_segments)
      as (_ & -> & _). }
  rewrite Hpct. unfold percent.
  destruct (Z.eqb_spec (total_points r) 0) as [E|E].
  - rewrite E. reflexivity.
  - destruct (Z.gtb_spec (total_points r) 0) as [Hpos|Hneg]; [done | lia].
Qed.

Lemma percentage_of_total_witness :
  let r := compile_final_report "gpt-4o-mini" (payload_with_brand_intro 10)
             opening_rubric 0 0 in
  0 ≤ total_points r
  ∧ total_points r = 100
  ∧ percentage r
    = Float (py_round
               (PrimFloat.mul (int_truediv (total_score r) (total_points r))
                  (float_of_int 100)) 2).
Proof.
  intros r.
  assert (Hbudget : 0 ≤ total_points r) by (by vm_compute).
  destruct (percentage_of_total "gpt-4o-mini" (payload_with_brand_intro 10)
              opening_rubric 0 0 Hbudget) as (_ & Hdecl & _ & Hpct).
  split; [exact Hbudget|]. split; [by apply Hdecl|]. exact Hpct.
Defined.

(** C10.  A fatal criterion the oracle left out: its raw score reads as 0,
    not as the NA sentinel; the gate triggers and the total is 0; the entry
    the report carries for it is fatal, is not NA, and scores 0 under a
    maximum that is not negative. *)
Theorem absent_fatal_criterion_zeroes_total (model : string)
    (scoring_results : gmap string judgment) (rb : rubric)
    (transcript_length num_segments : Z) (k : string) :
  k ∈ fatal_param_ids →
  scoring_results !! k = None →
  let r := compile_final_report model scoring_results rb transcript_length
             num_segments in
  raw_score scoring_results (Some k) = 0
  ∧ md_fatal_parameter_failed (metadata r) = true
  ∧ (∃ reason, fatal_error_reason r = Some reason)
  ∧ total_score r = 0
  ∧ Forall (λ d, pd_id d = Some k →
                 pd_is_fatal d = true ∧ pd_is_na d = false
                 ∧ (0 ≤ pd_max_points d → pd_score d = 0))
      (criteria_scores r).
Proof.
  intros Hk Habsent r.
  assert (Hraw : raw_score scoring_results (Some k) = 0).
  { unfold raw_score, get_result. simpl. by rewrite Habsent. }
  destruct (raw_zero_forces_zero model scoring_results rb transcript_length
              num_segments k Hk Hraw) as [Hgate Hzero].
  fold r in Hgate, Hzero.
  split; [done|]. split; [done|]. split.
  { subst r. unfold compile_final_report in *.
    destruct (check_fatal_parameters scoring_results rb) as [gate failed].
    simpl in *. subst gate. eauto. }
  split; [done|].
  pose proof (report_entries_compiled model scoring_results rb
                transcript_length num_segments) as Hall.
  fold r in Hall.
  induction Hall as [|sub d subs ds Hd _ IH]; constructor; [|done].
  intros Hid. destruct Hd as [Hsame Hmax Hfatal Hna _ _ _ Hin].
  rewrite Hid in Hsame. rewrite <- Hsame in *.
  split; [apply Hfatal; eauto|]. split.
  - destruct (pd_is_na d); [|done].
    assert (raw_score scoring_results (Some k) = -1) by by apply Hna.
    lia.
  - intros Hm. rewrite Hin; [done|]. rewrite Hraw. lia.
Qed.

Lemma absent_fatal_criterion_witness :
  let r := compile_final_report "gpt-4o-mini" payload_without_brand_intro
             opening_rubric 0 0 in
  md_fatal_parameter_failed (metadata r) = true ∧ total_score r = 0.
Proof.
  intros r.
  assert (Hk : "brand_intro"%string ∈ fatal_param_ids)
    by (unfold fatal_param_ids; set_solver).
  assert (Habsent : payload_without_brand_intro !! "brand_intro"%string = None)
    by apply lookup_delete_eq.
  destruct (absent_fatal_criterion_zeroes_total "gpt-4o-mini"
              payload_without_brand_intro opening_rubric 0 0 "brand_intro"
              Hk Habsent) as (_ & Hgate & _ & Hzero & _).
  split; [exact Hgate | exact Hzero].
Defined.

(** * Properties of the segment merger *)

Lemma merge_loop_from rest merged current :
  (let '(merged', current') := fold_left merge_step rest (merged, current) in
   merged' ++ [current'])
  = merged ++ merge_from current rest.
Proof.
  revert merged current.
  induction rest as [|next_seg rest IH]; intros merged current; simpl.
  - reflexivity.
  - case_bool_decide.
    + apply IH.
    + rewrite IH, <- app_assoc. reflexivity.
Qed.

Lemma merge_unfold first rest :
  merge_consecutive_speaker_segments (first :: rest) = merge_from first rest.
Proof.
  unfold merge_consecutive_speaker_segments.
  pose proof (merge_loop_from rest [] first) as H.
  destruct (fold_left merge_step rest ([], first)) as [merged current].
  exact H.
Qed.

(** The merged list starts with a segment of the current speaker. *)
Lemma merge_from_head current rest :
  ∃ first out, merge_from current rest = first :: out
               ∧ speaker first = speaker current.
Proof.
  revert current. induction rest as [|next_seg rest IH]; intros current; simpl.
  - by exists current, [].
  - case_bool_decide.
    + destruct (IH (absorb current next_seg)) as (first & out & -> & Hsp).
      by exists first, out.
    + by exists current, (merge_from next_seg rest).
Qed.

Lemma merge_from_no_repeat current rest :
  no_adjacent_repeat (merge_from current rest).
Proof.
  revert current. induction rest as [|next_seg rest IH]; intros current; simpl.
  - done.
  - case_bool_decide as Hsp.
    + apply IH.
    + specialize (IH next_seg).
      destruct (merge_from_head next_seg rest) as (first & out & Heq & Hfirst).
      rewrite Heq in IH |- *. simpl. split; [congruence | exact IH].
Qed.

(** On a list without adjacent repeats the loop never merges. *)
Lemma merge_from_fixed current rest :
  no_adjacent_repeat (current :: rest) → merge_from current rest = current :: rest.
Proof.
  revert current. induction rest as [|next_seg rest IH]; intros current H.
  - reflexivity.
  - destruct H as [Hne H]. simpl.
    rewrite bool_decide_eq_false_2 by done.
    by rewrite IH.
Qed.

Lemma merge_no_repeat segments :
  no_adjacent_repeat (merge_consecutive_speaker_segments segments).
Proof.
  destruct segments as [|first rest]; [done|].
  rewrite merge_unfold. apply merge_from_no_repeat.
Qed.

(** C4.  Idempotence of the segment merger: merging the merger's output
    gives that output back, for every segment list. *)
Theorem merge_idempotent (segments : list segment) :
  merge_consecutive_speaker_segments
    (merge_consecutive_speaker_segments segments)
  = merge_consecutive_speaker_segments segments.
Proof.
  pose proof (merge_no_repeat segments) as Hclean.
  destruct (merge_consecutive_speaker_segments segments) as [|first rest].
  - reflexivity.
  - rewrite merge_unfold. by apply merge_from_fixed.
Qed.

(** * Properties of the token aggregator *)

Section Aggregator.
Context (merge_threshold : float).

Lemma nonempty_true {A} (l : list A) : l ≠ [] → nonempty l = true.
Proof. by destruct l. Qed.

Lemma breaks_segment_true cur tok :
  breaks_segment merge_threshold cur tok = true ↔
  ts_speaker cur ≠ token_speaker tok
  ∨ PrimFloat.ltb merge_threshold
      (PrimFloat.sub (token_start tok) (ts_end_time cur)) = true.
Proof.
  unfold breaks_segment. rewrite orb_true_iff, negb_true_iff.
  by rewrite bool_decide_eq_false.
Qed.

Lemma build_segments_flush tokens :
  build_segments merge_threshold tokens
  = flush (fold_left (token_step merge_threshold) tokens ([], None)).
Proof.
  unfold build_segments, flush.
  by destruct (fold_left _ tokens _) as [segments [cur|]].
Qed.

(** The four cases of one turn of the token loop. *)
Lemma token_step_skip st tok :
  sanitize_token_text (tok_text tok) = [] →
  token_step merge_threshold st tok = st.
Proof. intros H. destruct st. unfold token_step. by rewrite H. Qed.

Lemma token_step_first segments tok :
  sanitize_token_text (tok_text tok) ≠ [] →
  token_step merge_threshold (segments, None) tok
  = (segments, Some (open_segment tok)).
Proof. intros H. unfold token_step. by rewrite (nonempty_true _ H). Qed.

Lemma token_step_break segments cur tok :
  sanitize_token_text (tok_text tok) ≠ [] →
  breaks_segment merge_threshold cur tok = true →
  token_step merge_threshold (segments, Some cur) tok
  = (segments ++ [cur], Some (open_segment tok)).
Proof.
  intros H Hbreak. unfold token_step. by rewrite (nonempty_true _ H), Hbreak.
Qed.

Lemma token_step_extend segments cur tok :
  sanitize_token_text (tok_text tok) ≠ [] →
  breaks_segment merge_threshold cur tok = false →
  token_step merge_threshold (segments, Some cur) tok
  = (segments, Some (extend_segment cur tok)).
Proof.
  intros H Hstay. unfold token_step. by rewrite (nonempty_true _ H), Hstay.
Qed.

(** Every derivation of the specification's rules describes what the loop
    computes from the same open segment. *)
Lemma aggregates_sound open_seg tokens out :
  aggregates merge_threshold open_seg tokens out →
  ∀ segments,
    flush (fold_left (token_step merge_threshold) tokens (segments, open_seg))
    = segments ++ out.
Proof.
  induction 1 as [ | cur | open_seg tok tokens out Hempty _ IH
                 | tok tokens out Htext _ IH
                 | cur tok tokens out Htext Hbreak _ IH
                 | cur tok tokens out Htext Hsame Hnear _ IH ];
    intros segments; cbn [fold_left].
  - unfold flush. simpl. by rewrite app_nil_r.
  - reflexivity.
  - rewrite token_step_skip by done. apply IH.
  - rewrite token_step_first by done. apply IH.
  - rewrite token_step_break by (done || by apply breaks_segment_true).
    rewrite IH, <- app_assoc. reflexivity.
  - rewrite token_step_extend; [apply IH | done |].
    apply not_true_is_false. rewrite breaks_segment_true.
    intros [Hne|Hfar]; [done | congruence].
Qed.

(** The rules always apply: every token stream has an outcome. *)
Lemma aggregates_total tokens open_seg :
  ∃ out, aggregates merge_threshold open_seg tokens out.
Proof.
  revert open_seg. induction tokens as [|tok tokens IH]; intros open_seg.
  - destruct open_seg as [cur|]; eexists; constructor.
  - destruct (decide (sanitize_token_text (tok_text tok) = [])) as [Hempty|Htext].
    { destruct (IH open_seg) as [out Hout]. exists out. by apply agg_skip. }
    destruct open_seg as [cur|].
    + destruct (breaks_segment merge_threshold cur tok) eqn:Hbreak.
      * destruct (IH (Some (open_segment tok))) as [out Hout].
        exists (cur :: out). apply agg_break; [done | | done].
        by apply breaks_segment_true.
      * destruct (IH (Some (extend_segment cur tok))) as [out Hout].
        exists out.
        assert (Hnot : ¬ (ts_speaker cur ≠ token_speaker tok
                          ∨ PrimFloat.ltb merge_threshold
                              (PrimFloat.sub (token_start tok) (ts_end_time cur))
                            = true)).
        { rewrite <- breaks_segment_true. congruence. }
        apply agg_extend; [done | | | exact Hout].
        -- destruct (decide (ts_speaker cur = token_speaker tok)); tauto.
        -- apply not_true_is_false. tauto.
    + destruct (IH (Some (open_segment tok))) as [out Hout].
      exists out. by apply agg_first.
Qed.

End Aggregator.

(** C5.  Token aggregation: the segments the token loop builds are exactly
    those the specification's rules derive (skip a token whose sanitized text
    is empty; open a segment when none is open, on a speaker change, or when
    the token starts more than the threshold after the open segment's end;
    otherwise move the open segment's end and append the text as it is;
    flush at the end), and scenario 1 yields its two segments. *)
Theorem token_aggregation (merge_threshold : float) (tokens : list token) :
  (∀ out, aggregates merge_threshold None tokens out
          ↔ out = build_segments merge_threshold tokens)
  ∧ build_segments 0.5 greeting_tokens
    = [ {| ts_speaker := "A"; ts_start_time := 0; ts_end_time := 1.5;
           ts_text := text_of_string "Hi there" |};
        {| ts_speaker := "B"; ts_start_time := 2; ts_end_time := 2.5;
           ts_text := text_of_string "Hello" |} ].
Proof.
  split; [|by vm_compute].
  intros out. rewrite build_segments_flush. split.
  - intros Hout. by rewrite (aggregates_sound _ _ _ _ Hout []).
  - intros ->. destruct (aggregates_total merge_threshold tokens None) as [out Hout].
    by rewrite (aggregates_sound _ _ _ _ Hout []).
Qed.

Lemma token_aggregation_witness :
  aggregates 0.5 None greeting_tokens
    [ {| ts_speaker := "A"; ts_start_time := 0; ts_end_time := 1.5;
         ts_text := text_of_string "Hi there" |};
      {| ts_speaker := "B"; ts_start_time := 2; ts_end_time := 2.5;
         ts_text := text_of_string "Hello" |} ].
Proof.
  destruct (token_aggregation 0.5 greeting_tokens) as [Hrules Hscenario].
  apply Hrules. symmetry. exact Hscenario.
Defined.

(** * Properties of the speaker label normalizer *)

Lemma first_appearances_elem seen speakers s :
  s ∈ first_appearances seen speakers → s ∈ speakers ∧ s ∉ seen.
Proof.
  revert seen. induction speakers as [|x speakers IH]; intros seen; simpl.
  - by intros ?%elem_of_nil.
  - case_bool_decide as Hx.
    + intros [Hin Hout]%IH. split; [by apply list_elem_of_further | done].
    + intros [->|Hin]%elem_of_cons.
      * split; [apply list_elem_of_here | done].
      * apply IH in Hin as [Hin Hout]. split; [by apply list_elem_of_further|].
        intros Hs. apply Hout. by apply list_elem_of_further.
Qed.

Lemma first_appearances_complete seen speakers s :
  s ∈ speakers → s ∈ seen ∨ s ∈ first_appearances seen speakers.
Proof.
  revert seen. induction speakers as [|x speakers IH]; intros seen; simpl.
  - by intros ?%elem_of_nil.
  - intros [->|Hin]%elem_of_cons.
    + case_bool_decide; [by left | right; apply list_elem_of_here].
    + case_bool_decide as Hx.
      * by apply IH.
      * destruct (IH (x :: seen) Hin) as [[->|Hs]%elem_of_cons|Hs].
        -- right. apply list_elem_of_here.
        -- by left.
        -- right. by apply list_elem_of_further.
Qed.

Lemma first_appearances_NoDup seen speakers :
  NoDup (first_appearances seen speakers).
Proof.
  revert seen. induction speakers as [|x speakers IH]; intros seen; simpl.
  - constructor.
  - case_bool_decide; [apply IH|]. constructor; [|apply IH].
    intros [_ Hout]%first_appearances_elem. apply Hout, list_elem_of_here.
Qed.

(** Position in the list of first appearances follows the order in which
    the speakers first occur. *)
Lemma first_appearances_order seen speakers k1 k2 a b :
  (k1 < k2)%nat →
  first_appearances seen speakers !! k1 = Some a →
  first_appearances seen speakers !! k2 = Some b →
  ∃ i, speakers !! i = Some a
       ∧ ∀ j, speakers !! j = Some b → (i < j)%nat.
Proof.
  revert seen k1 k2.
  induction speakers as [|x speakers IH]; intros seen k1 k2 Hlt; simpl.
  - by intros ?.
  - case_bool_decide as Hx.
    + intros Ha Hb. destruct (IH seen k1 k2 Hlt Ha Hb) as (i & Hi & Hfirst).
      exists (S i). split; [done|]. intros [|j] Hj.
      * simpl in Hj. injection Hj as ->.
        apply list_elem_of_lookup_2, first_appearances_elem in Hb. tauto.
      * apply Hfirst in Hj. lia.
    + destruct k2 as [|k2]; [lia|]. destruct k1 as [|k1]; simpl.
      * intros [= <-] Hb. exists 0%nat. split; [done|]. intros [|j] Hj; [|lia].
        simpl in Hj. injection Hj as ->.
        apply list_elem_of_lookup_2, first_appearances_elem in Hb as [_ Hout].
        destruct Hout. apply list_elem_of_here.
      * intros Ha Hb.
        destruct (IH (x :: seen) k1 k2 ltac:(lia) Ha Hb) as (i & Hi & Hfirst).
        exists (S i). split; [done|]. intros [|j] Hj.
        -- simpl in Hj. injection Hj as ->.
           apply list_elem_of_lookup_2, first_appearances_elem in Hb as [_ Hout].
           destruct Hout. apply list_elem_of_here.
        -- apply Hfirst in Hj. lia.
Qed.

Lemma label_step_known speaker_map counter seg :
  is_Some (speaker_map !! speaker seg) →
  label_step (speaker_map, counter) seg = (speaker_map, counter).
Proof. intros [v Hv]. unfold label_step. by rewrite Hv. Qed.

Lemma label_step_new speaker_map counter seg :
  speaker_map !! speaker seg = None →
  label_step (speaker_map, counter) seg
  = (<[speaker seg := ("Speaker " +:+ pretty counter)%string]> speaker_map,
     counter + 1).
Proof. intros Hv. unfold label_step. by rewrite Hv. Qed.

(** The first loop: entries already in the map stay, and the speaker at
    position [k] of the first appearances gets the number [counter + k]. *)
Lemma label_loop segments seen speaker_map counter :
  (∀ s, s ∈ seen ↔ is_Some (speaker_map !! s)) →
  let final := (fold_left label_step segments (speaker_map, counter)).1 in
  (∀ s v, speaker_map !! s = Some v → final !! s = Some v)
  ∧ ∀ k s,
      first_appearances seen (speaker <$> segments) !! k = Some s →
      final !! s = Some ("Speaker " +:+ pretty (counter + Z.of_nat k))%string.
Proof.
  revert seen speaker_map counter.
  induction segments as [|seg segments IH]; intros seen speaker_map counter Hseen;
    cbn [fold_left fmap list_fmap first_appearances].
  - split; [done | by intros ? ? ?].
  - destruct (speaker_map !! speaker seg) as [v|] eqn:Hlook.
    + rewrite label_step_known by eauto.
      rewrite bool_decide_eq_true_2 by (apply Hseen; eauto).
      by apply IH.
    + assert (Hnew : speaker seg ∉ seen).
      { intros Hin%Hseen. rewrite Hlook in Hin. by destruct Hin. }
      rewrite label_step_new by done.
      rewrite bool_decide_eq_false_2 by done.
      destruct (IH (speaker seg :: seen)
                  (<[speaker seg := ("Speaker " +:+ pretty counter)%string]>
                     speaker_map)
                  (counter + 1)) as [Hkeep Hnum].
      { intros s. rewrite elem_of_cons, lookup_insert_is_Some, Hseen.
        destruct (decide (speaker seg = s)) as [->|Hne].
        - split; intros _; by left.
        - split; [intros [->|H]; [by left | by right]
                 |intros [<-|[_ H]]; [by left | by right]]. }
      split.
      * intros s v Hs. apply Hkeep. rewrite lookup_insert_ne; [done|].
        intros <-. congruence.
      * intros [|k] s; simpl.
        -- intros [= <-]. rewrite Z.add_0_r. apply Hkeep, lookup_insert_eq.
        -- intros Hk. rewrite (Hnum k s Hk). do 3 f_equal. lia.
Qed.

(** Every speaker the second loop looks up has an entry in [speaker_map]. *)
Lemma speaker_map_covers segments seg :
  seg ∈ segments →
  ∃ k, first_appearances [] (speaker <$> segments) !! k = Some (speaker seg)
       ∧ (fold_left label_step segments (∅, 1)).1 !! speaker seg
         = Some (ordinal_label k).
Proof.
  intros Hin.
  assert (Hsp : speaker seg ∈ speaker <$> segments)
    by (apply list_elem_of_fmap; eauto).
  destruct (first_appearances_complete [] _ _ Hsp) as [Hnil|Hfirst];
    [by apply elem_of_nil in Hnil|].
  apply list_elem_of_lookup in Hfirst as [k Hk].
  exists k. split; [done|].
  destruct (label_loop segments [] ∅ 1) as [_ Hnum].
  { intros s. rewrite elem_of_nil, lookup_empty. split; [done | by intros []]. }
  rewrite (Hnum k _ Hk). unfold ordinal_label. do 3 f_equal. lia.
Qed.

Lemma normalize_unfold segments :
  normalize_speaker_labels segments
  = (λ seg, with_speaker seg
              ((fold_left label_step segments (∅, 1)).1 !!! speaker seg))
      <$> segments.
Proof.
  unfold normalize_speaker_labels. destruct segments as [|seg segments]; [done|].
  by destruct (fold_left label_step (seg :: segments) (∅, 1)).
Qed.

(** C6.  Speaker labels: with the distinct raw speakers listed in order of
    first appearance, the normalizer keeps the number and order of the
    segments and every field but the speaker, and replaces the speaker at
    position k of that list by "Speaker k+1"; the list has no repeats and
    the labels of different positions differ, so each raw speaker has one
    label of its own.  Scenario 2 yields Speaker 1, 1, 2, 1. *)
Theorem speaker_labels_by_first_appearance (segments : list segment) :
  let speakers := first_appearances [] (speaker <$> segments) in
  let normalized := normalize_speaker_labels segments in
  NoDup speakers
  ∧ (∀ s, s ∈ speakers ↔ s ∈ speaker <$> segments)
  ∧ (∀ k1 k2 a b,
       (k1 < k2)%nat → speakers !! k1 = Some a → speakers !! k2 = Some b →
       ∃ i, (speaker <$> segments) !! i = Some a
            ∧ ∀ j, (speaker <$> segments) !! j = Some b → (i < j)%nat)
  ∧ length normalized = length segments
  ∧ (∀ i seg,
       segments !! i = Some seg →
       ∃ k, speakers !! k = Some (speaker seg)
            ∧ normalized !! i = Some (with_speaker seg (ordinal_label k)))
  ∧ (∀ k1 k2, ordinal_label k1 = ordinal_label k2 → k1 = k2)
  ∧ speaker <$> normalize_speaker_labels raw_speakers
    = [ "Speaker 1"; "Speaker 1"; "Speaker 2"; "Speaker 1" ]%string.
Proof.
  intros speakers normalized. subst speakers normalized.
  split; [apply first_appearances_NoDup|].
  split.
  { intros s. split.
    - by intros [Hin _]%first_appearances_elem.
    - intros Hin. destruct (first_appearances_complete [] _ _ Hin) as [Hnil|H];
        [by apply elem_of_nil in Hnil | done]. }
  split; [intros k1 k2 a b; apply first_appearances_order|].
  rewrite normalize_unfold.
  split; [by rewrite length_fmap|].
  split.
  { intros i seg Hi.
    destruct (speaker_map_covers segments seg) as (k & Hk & Hlabel).
    { apply list_elem_of_lookup. eauto. }
    exists k. split; [done|].
    rewrite list_lookup_fmap, Hi. simpl.
    by rewrite (lookup_total_correct _ _ _ Hlabel). }
  split; [|by vm_compute].
  intros k1 k2 Heq. unfold ordinal_label in Heq.
  apply (inj (String.append "Speaker ")) in Heq.
  apply (inj pretty) in Heq. lia.
Qed.

Lemma speaker_labels_witness :
  normalize_speaker_labels raw_speakers !! 2%nat
  = Some (with_speaker (heard "S5") "Speaker 2").
Proof.
  destruct (speaker_labels_by_first_appearance raw_speakers)
    as (_ & _ & _ & _ & Hlabel & _).
  destruct (Hlabel 2%nat (heard "S5")) as (k & Hk & Hout); [reflexivity|].
  assert (Hpos : k = 1%nat).
  { destruct k as [|[|[|k]]]; vm_compute in Hk; congruence. }
  subst k. exact Hout.
Defined.

(** * The whole transcription, on one input *)

(** C7.  One speaker, two tokens four seconds apart: the token loop opens two
    segments, each converted with a duration of 1, and the merger joins them
    into one segment from 0 to 6 whose duration is still 1, not the 6 that
    is its end less its start. *)
Theorem merged_segment_keeps_first_duration :
  ∃ r seg,
    transcribe_audio {| tj_tokens := Some paused_tokens; tj_text := None |}
      0.5 true = inr r
    ∧ tr_speaker_segments r = [seg]
    ∧ start_time seg = 0%float
    ∧ end_time seg = 6%float
    ∧ duration seg = 1%float
    ∧ py_round (PrimFloat.sub (end_time seg) (start_time seg)) 2 = 6%float.
Proof.
  eexists. eexists.
  split; [vm_compute; reflexivity|].
  split; [reflexivity|].
  cbn [start_time end_time duration].
  split; [reflexivity|]. split; [reflexivity|]. split; [reflexivity|].
  vm_compute. reflexivity.
Qed.

(** * Failures that stop a run *)

Section Abort.
Context (model : string) {reckoner faq : Type}.
Context (load_rubric_v2 : option string → result rubric).
Context (load_project_reckoner : result reckoner).
Context (load_faq_data : result faq).
Context (score_transcript_v2 :
           text → rubric → reckoner → faq → list segment →
           result (gmap string judgment)).

(** A transcript that is missing, empty or blank stops the entry point
    before any collaborator runs. *)
Lemma blank_transcript_raises data rubric_path :
  strip (default [] (td_transcription data)) = [] →
  score_transcript_main model load_rubric_v2 load_project_reckoner
    load_faq_data score_transcript_v2 data rubric_path
  = inl (ValueError "Transcript is empty or missing").
Proof.
  intros Hblank. unfold score_transcript_main. rewrite Hblank.
  by rewrite orb_true_r.
Qed.

End Abort.

Lemma no_tokens_raises response merge_threshold normalize_speakers :
  default [] (tj_tokens response) = [] →
  transcribe_audio response merge_threshold normalize_speakers
  = inl (ValueError
           "Transcription failed: Soniox transcript response did not contain any tokens").
Proof.
  intros Hnone. unfold transcribe_audio, transcribe_body.
  by rewrite Hnone.
Qed.

(** C9.  Hard failures: a transcript response without tokens (none, or an
    empty list) makes [transcribe_audio] raise ValueError, and a request
    whose transcript is missing, empty or blank makes [score_transcript_main]
    raise ValueError, whatever the loaders and the oracle would have
    answered; in both cases the outcome is the error and no result. *)
Theorem empty_input_aborts :
  (∀ response merge_threshold normalize_speakers,
     tj_tokens response = None ∨ tj_tokens response = Some [] →
     (∃ msg, transcribe_audio response merge_threshold normalize_speakers
             = inl (ValueError msg))
     ∧ ∀ r, transcribe_audio response merge_threshold normalize_speakers
            ≠ inr r)
  ∧ (∀ (model : string) (reckoner faq : Type)
       (load_rubric_v2 : option string → result rubric)
       (load_project_reckoner : result reckoner)
       (load_faq_data : result faq)
       (score_transcript_v2 :
          text → rubric → reckoner → faq → list segment →
          result (gmap string judgment))
       (data : transcript_data) (rubric_path : option string),
       td_transcription data = None
       ∨ (∃ t, td_transcription data = Some t ∧ strip t = []) →
       score_transcript_main model load_rubric_v2 load_project_reckoner
         load_faq_data score_transcript_v2 data rubric_path
       = inl (ValueError "Transcript is empty or missing")
       ∧ ∀ r, score_transcript_main model load_rubric_v2
                load_project_reckoner load_faq_data score_transcript_v2 data
                rubric_path
              ≠ inr r).
Proof.
  split.
  - intros response merge_threshold normalize_speakers Hnone.
    assert (Hdef : default [] (tj_tokens response) = [])
      by (destruct Hnone as [-> | ->]; reflexivity).
    rewrite (no_tokens_raises _ _ _ Hdef). split; [eauto | done].
  - intros model reckoner faq load_rubric_v2 load_project_reckoner
      load_faq_data score_transcript_v2 data rubric_path Hblank.
    assert (Hstrip : strip (default [] (td_transcription data)) = []).
    { destruct Hblank as [-> | (t & -> & Ht)]; [reflexivity | exact Ht]. }
    rewrite (blank_transcript_raises _ _ _ _ _ _ _ Hstrip). split; done.
Qed.

Lemma empty_input_aborts_witness :
  (∃ msg, transcribe_audio {| tj_tokens := Some []; tj_text := None |} 0.5 true
          = inl (ValueError msg))
  ∧ score_transcript_main "gpt-4o-mini" no_rubric (Return tt) (Return tt)
      silent_oracle
      {| td_transcription := Some (text_of_string "   ");
         td_speaker_segments := None |} None
    = inl (ValueError "Transcript is empty or missing").
Proof.
  destruct empty_input_aborts as [Htokens Htranscript].
  split.
  - apply (Htokens {| tj_tokens := Some []; tj_text := None |}). by right.
  - apply (Htranscript "gpt-4o-mini" unit unit). right.
    exists (text_of_string "   "). split; reflexivity.
Defined.

(** * Further properties: the text sanitizers *)

Section Sanitizer.

Lemma kept_char_filters (c : N) :
  kept_char c = true ↔
  c ≠ 0xFFFD%N ∧ is_zero_width c = false ∧ is_surrogate c = false
  ∧ (c < 0x110000)%N.
Proof.
  unfold kept_char. rewrite !andb_true_iff, !negb_true_iff.
  rewrite N.eqb_neq, N.ltb_lt. tauto.
Qed.

(** The four passes of [_clean_unicode] amount to one filter. *)
Lemma clean_unicode_filter (t : list N) :
  _clean_unicode (Some t) = filter (λ c, kept_char c = true) t.
Proof.
  destruct t as [|c0 t0]; [reflexivity|].
  cbv beta iota zeta delta [_clean_unicode]. unfold text.
  rewrite !list_filter_filter. apply list_filter_iff.
  intros c. rewrite kept_char_filters. tauto.
Qed.

Lemma sanitize_token_text_filter (t : list N) :
  sanitize_token_text (Some t) = filter (λ c, kept_char c = true) t.
Proof.
  destruct t as [|c t]; [reflexivity|].
  unfold sanitize_token_text. apply clean_unicode_filter.
Qed.

Lemma sanitize_text_strip (t : list N) :
  sanitize_text (Some t) = strip (filter (λ c, kept_char c = true) t).
Proof.
  destruct t as [|c t]; [reflexivity|].
  unfold sanitize_text. by rewrite clean_unicode_filter.
Qed.

(** White space is never a character the cleaner removes. *)
Lemma space_is_kept (c : N) : is_space c = true → kept_char c = true.
Proof.
  unfold is_space, kept_char, is_zero_width, is_surrogate.
  rewrite !orb_true_iff, !andb_true_iff, !negb_true_iff, !orb_false_iff,
    !andb_false_iff, !N.leb_le, !N.eqb_eq, !N.leb_gt, N.ltb_lt, !N.eqb_neq.
  lia.
Qed.

Lemma filter_clean (t : list N) :
  clean t → filter (λ c, kept_char c = true) t = t.
Proof.
  induction 1 as [|c t Hc _ IH]; [reflexivity|].
  rewrite filter_cons, decide_True by done. by rewrite IH.
Qed.

Lemma clean_filter (t : list N) : clean (filter (λ c, kept_char c = true) t).
Proof. apply Forall_forall. by intros c [Hc _]%list_elem_of_filter. Qed.

Lemma clean_app (a b : list N) : clean a → clean b → clean (a ++ b).
Proof. apply Forall_app_2. Qed.

Lemma lstrip_split (t : list N) :
  ∃ blanks, t = blanks ++ lstrip t
            ∧ Forall (λ c, is_space c = true) blanks.
Proof.
  induction t as [|c t (blanks & Ht & Hb)]; simpl.
  - by exists [].
  - destruct (is_space c) eqn:Hc.
    + exists (c :: blanks). split; [by rewrite Ht at 1 | by constructor].
    + by exists [].
Qed.

Lemma lstrip_head (t : list N) c :
  head (lstrip t) = Some c → is_space c = false.
Proof.
  induction t as [|c' t IH]; simpl; [done|].
  destruct (is_space c') eqn:Hc; [done|]. simpl. by intros [= <-].
Qed.

Lemma lstrip_fixed (t : list N) :
  (∀ c, head t = Some c → is_space c = false) → lstrip t = t.
Proof.
  destruct t as [|c t]; [done|]. intros H. simpl. by rewrite (H c).
Qed.

Lemma lstrip_clean (t : list N) : clean t → clean (lstrip t).
Proof.
  intros Ht. destruct (lstrip_split t) as (blanks & Heq & _).
  unfold clean in *. rewrite Heq in Ht. by apply Forall_app in Ht as [_ ?].
Qed.

Lemma lstrip_last (t : list N) c :
  last (lstrip t) = Some c → last t = Some c.
Proof.
  destruct (lstrip_split t) as (blanks & Heq & _).
  intros Hl. rewrite Heq.
  destruct (lstrip t) as [|c' t'] eqn:E; [done|].
  rewrite last_app. by rewrite Hl.
Qed.

Lemma strip_trimmed (t : list N) : trimmed (strip t).
Proof.
  unfold strip, trimmed. split; intros c.
  - rewrite head_reverse. intros Hc%lstrip_last.
    rewrite last_reverse in Hc. by apply lstrip_head in Hc.
  - rewrite last_reverse. apply lstrip_head.
Qed.

Lemma strip_fixed (t : list N) : trimmed t → strip t = t.
Proof.
  intros [Hh Hl]. unfold strip. rewrite (lstrip_fixed t Hh).
  rewrite lstrip_fixed; [apply reverse_involutive|].
  intros c. rewrite head_reverse. apply Hl.
Qed.

Lemma strip_clean (t : list N) : clean t → clean (strip t).
Proof.
  intros Ht. unfold strip, clean.
  apply Forall_reverse, lstrip_clean, Forall_reverse, lstrip_clean, Ht.
Qed.

Lemma sanitize_text_clean_trimmed (o : option text) :
  clean (sanitize_text o) ∧ trimmed (sanitize_text o).
Proof.
  unfold text in *. destruct o as [t|]; [|by repeat constructor].
  rewrite (sanitize_text_strip t). split.
  - apply strip_clean, clean_filter.
  - apply strip_trimmed.
Qed.

End Sanitizer.


(** X2.  [sanitize_token_text] works character by character: it distributes
    over concatenation, returns clean text unchanged, keeps every white-space
    character wherever it stands, and its result is clean. *)
Theorem sanitize_token_text_keeps_spacing :
  (∀ a b : list N,
     sanitize_token_text (Some (a ++ b))
     = sanitize_token_text (Some a) ++ sanitize_token_text (Some b))
  ∧ (∀ t : list N, clean t → sanitize_token_text (Some t) = t)
  ∧ (∀ (blanks t : list N),
       Forall (λ c, is_space c = true) blanks →
       sanitize_token_text (Some (blanks ++ t ++ blanks))
       = blanks ++ sanitize_token_text (Some t) ++ blanks)
  ∧ ∀ o, clean (sanitize_token_text o).
Proof.
  unfold text in *.
  assert (Hspaces : ∀ blanks : list N,
            Forall (λ c, is_space c = true) blanks → clean blanks).
  { intros blanks Hb. eapply Forall_impl; [exact Hb|].
    intros c. apply space_is_kept. }
  split; [|split; [|split]].
  - intros a b. rewrite !sanitize_token_text_filter. apply filter_app.
  - intros t Ht. rewrite sanitize_token_text_filter. by apply filter_clean.
  - intros blanks t Hb. rewrite !sanitize_token_text_filter, !filter_app.
    by rewrite (filter_clean _ (Hspaces _ Hb)).
  - intros [t|]; [|constructor].
    rewrite sanitize_token_text_filter. apply clean_filter.
Qed.

Lemma sanitize_token_text_witness :
  sanitize_token_text (Some (text_of_string " hi "))
  = text_of_string " hi ".
Proof.
  destruct sanitize_token_text_keeps_spacing as (_ & Hclean & _).
  apply Hclean. unfold clean. repeat constructor.
Defined.

(** * Further properties: from tokens to segments *)

Section TokenLoop.
Context (merge_threshold : float).

Lemma sanitize_token_text_clean o : clean (sanitize_token_text o).
Proof.
  unfold text in *. destruct o as [t|]; [|constructor].
  rewrite sanitize_token_text_filter. apply clean_filter.
Qed.

Lemma flush_open segments (cur : token_segment) :
  flush (segments, Some cur) = segments ++ [cur].
Proof. reflexivity. Qed.

(** One turn of the token loop adds the token's sanitized text at the end of
    the text gathered so far, and at most one segment. *)
Lemma token_step_text st tok :
  let st' := token_step merge_threshold st tok in
  concat (ts_text <$> flush st')
  = concat (ts_text <$> flush st) ++ sanitize_token_text (tok_text tok)
  ∧ (Forall (λ s, ts_text s ≠ [] ∧ clean (ts_text s)) (flush st) →
     Forall (λ s, ts_text s ≠ [] ∧ clean (ts_text s)) (flush st'))
  ∧ (length (flush st') ≤ S (length (flush st)))%nat.
Proof.
  destruct st as [segments open_seg]. cbv zeta.
  destruct (decide (sanitize_token_text (tok_text tok) = [])) as [Hempty|Htext].
  { rewrite token_step_skip by done. rewrite Hempty, app_nil_r.
    split; [done|]. split; [done | lia]. }
  assert (Hopen : ts_text (open_segment tok) ≠ []
                  ∧ clean (ts_text (open_segment tok))).
  { split; [done | apply sanitize_token_text_clean]. }
  destruct open_seg as [cur|].
  - destruct (breaks_segment merge_threshold cur tok) eqn:Hbreak.
    + rewrite token_step_break by done. rewrite !flush_open.
      rewrite fmap_app, concat_app. simpl. rewrite app_nil_r.
      split; [done|]. split.
      * intros Hall. apply Forall_app. split; [done | by constructor].
      * rewrite !length_app. simpl. lia.
    + rewrite token_step_extend by done. rewrite !flush_open.
      rewrite !fmap_app, !concat_app. simpl. rewrite !app_nil_r, app_assoc.
      split; [done|]. split.
      * intros [Hsegs Hcur]%Forall_app. apply Forall_app. split; [done|].
        apply Forall_singleton in Hcur as [Hne Hclean].
        constructor; [|constructor]. simpl. split.
        -- destruct (ts_text cur); [done | discriminate].
        -- apply clean_app; [done | apply sanitize_token_text_clean].
      * rewrite !length_app. simpl. lia.
  - rewrite token_step_first by done. rewrite flush_open.
    change (flush (segments, None)) with segments.
    rewrite fmap_app, concat_app. simpl. rewrite app_nil_r.
    split; [done|]. split.
    + intros Hall. apply Forall_app. split; [done | by constructor].
    + rewrite length_app. simpl. lia.
Qed.

Lemma token_loop_text tokens st :
  let st' := fold_left (token_step merge_threshold) tokens st in
  concat (ts_text <$> flush st')
  = concat (ts_text <$> flush st)
    ++ concat ((λ tok, sanitize_token_text (tok_text tok)) <$> tokens)
  ∧ (Forall (λ s, ts_text s ≠ [] ∧ clean (ts_text s)) (flush st) →
     Forall (λ s, ts_text s ≠ [] ∧ clean (ts_text s)) (flush st'))
  ∧ (length (flush st') ≤ length (flush st) + length tokens)%nat.
Proof.
  revert st. induction tokens as [|tok tokens IH]; intros st; cbn [fold_left].
  - cbv zeta. simpl. rewrite app_nil_r. split; [done|]. split; [done | lia].
  - destruct (IH (token_step merge_threshold st tok)) as (Htext & Hgood & Hlen).
    destruct (token_step_text st tok) as (Htext1 & Hgood1 & Hlen1).
    cbv zeta in *. rewrite Htext, Htext1. simpl. rewrite app_assoc.
    split; [done|]. split; [auto|]. simpl. lia.
Qed.

End TokenLoop.

(** X3.  The token loop loses and adds no text: the texts of the segments
    it builds, put end to end, are the sanitized texts of the tokens put end
    to end.  Every segment has text, all of it clean, and there are at most
    as many segments as tokens. *)
Theorem build_segments_conserves_text (merge_threshold : float)
    (tokens : list token) :
  concat (ts_text <$> build_segments merge_threshold tokens)
  = concat ((λ tok, sanitize_token_text (tok_text tok)) <$> tokens)
  ∧ Forall (λ s, ts_text s ≠ [] ∧ clean (ts_text s))
      (build_segments merge_threshold tokens)
  ∧ (length (build_segments merge_threshold tokens) ≤ length tokens)%nat.
Proof.
  rewrite build_segments_flush.
  destruct (token_loop_text merge_threshold tokens ([], None))
    as (Htext & Hgood & Hlen).
  cbv zeta in *. split; [exact Htext|]. split; [|exact Hlen].
  apply Hgood. constructor.
Qed.

Section Convert.

Lemma convert_step_text st (item : nat * token_segment) :
  let st' := convert_step st item in
  seg_text <$> st'.1
  = (seg_text <$> st.1)
    ++ filter (λ t, t ≠ []) [sanitize_text (Some (ts_text item.2))]
  ∧ (Forall (λ seg, tidy (seg_text seg) ∧ speaker seg ≠ ""%string) st.1 →
     Forall (λ seg, tidy (seg_text seg) ∧ speaker seg ≠ ""%string) st'.1).
Proof.
  destruct st as [speaker_segments total_duration].
  destruct item as [idx seg]. cbv zeta. unfold convert_step. cbn [fst snd].
  destruct (sanitize_text_clean_trimmed (Some (ts_text seg)))
    as [Hclean Htrim].
  destruct (sanitize_text (Some (ts_text seg))) as [|c t] eqn:Htext;
    cbn [nonempty fst].
  { rewrite filter_cons_False by (intros H; by apply H).
    rewrite filter_nil, app_nil_r. done. }
  rewrite filter_cons_True by done. rewrite filter_nil.
  rewrite fmap_app. cbn [fmap list_fmap seg_text]. split; [done|].
  intros Hall. apply Forall_app. split; [done|].
  constructor; [|constructor]. cbn [seg_text speaker]. split; [done|].
  case_bool_decide as Hsp; [|done].
  simpl. discriminate.
Qed.

Lemma convert_loop_text items st :
  let st' := fold_left convert_step items st in
  seg_text <$> st'.1
  = (seg_text <$> st.1)
    ++ filter (λ t, t ≠ [])
         ((λ item, sanitize_text (Some (ts_text item.2))) <$> items)
  ∧ (Forall (λ seg, tidy (seg_text seg) ∧ speaker seg ≠ ""%string) st.1 →
     Forall (λ seg, tidy (seg_text seg) ∧ speaker seg ≠ ""%string) st'.1).
Proof.
  revert st. induction items as [|item items IH]; intros st; cbn [fold_left].
  - cbv zeta. simpl. rewrite filter_nil, app_nil_r. done.
  - destruct (IH (convert_step st item)) as [Htext Hgood].
    destruct (convert_step_text st item) as [Htext1 Hgood1].
    cbv zeta in *. rewrite Htext, Htext1.
    rewrite fmap_cons, <- app_assoc.
    change (?x :: ?l) with ([x] ++ l) at 2. rewrite filter_app.
    split; [done | auto].
Qed.

Lemma enumerate_snd {A} (l : list A) : snd <$> enumerate l = l.
Proof. unfold enumerate. apply snd_zip. by rewrite length_seq. Qed.

End Convert.

(** X4.  The conversion loop keeps the segments in order and drops exactly
    those whose text is blank: the texts it returns are the trimmed,
    sanitized texts of the token segments without the empty ones.  Every
    segment it returns has text that is not empty, clean and trimmed, and a
    speaker that is not the empty string. *)
Theorem convert_segments_keeps_spoken (segments : list token_segment) :
  seg_text <$> (convert_segments segments).1
  = filter (λ t, t ≠ [])
      ((λ seg, sanitize_text (Some (ts_text seg))) <$> segments)
  ∧ Forall (λ seg, tidy (seg_text seg) ∧ speaker seg ≠ ""%string)
      (convert_segments segments).1
  ∧ (length (convert_segments segments).1 ≤ length segments)%nat.
Proof.
  unfold convert_segments.
  destruct (convert_loop_text (enumerate segments) ([], 0%float))
    as [Htext Hgood].
  cbv zeta in *. change (seg_text <$> ([], 0%float).1) with (@nil text) in Htext.
  rewrite app_nil_l in Htext.
  assert (Hitems : (λ item : nat * token_segment,
                      sanitize_text (Some (ts_text item.2)))
                     <$> enumerate segments
                   = (λ seg, sanitize_text (Some (ts_text seg))) <$> segments).
  { rewrite <- (enumerate_snd segments) at 2. by rewrite <- list_fmap_compose. }
  rewrite Hitems in Htext.
  split; [exact Htext|]. split; [apply Hgood; constructor|].
  rewrite <- (length_fmap seg_text), Htext.
  etrans; [apply length_filter|]. by rewrite length_fmap.
Qed.

(** * Further properties: the segment merger *)

Section MergeRuns.

Lemma merge_from_speakers current rest :
  speaker <$> merge_from current rest
  = collapse (speaker current :: (speaker <$> rest)).
Proof.
  revert current. induction rest as [|next_seg rest IH]; intros current.
  - reflexivity.
  - cbn [merge_from fmap list_fmap collapse].
    case_bool_decide as Hsp.
    + rewrite IH. cbn [absorb speaker]. by rewrite Hsp.
    + cbn [fmap list_fmap]. by rewrite IH.
Qed.

Lemma merge_from_length current rest :
  (length (merge_from current rest) ≤ S (length rest))%nat.
Proof.
  revert current. induction rest as [|next_seg rest IH]; intros current; simpl.
  - lia.
  - case_bool_decide.
    + specialize (IH (absorb current next_seg)). lia.
    + specialize (IH next_seg). simpl. lia.
Qed.

Lemma merge_from_start current rest :
  start_time <$> head (merge_from current rest) = Some (start_time current).
Proof.
  revert current. induction rest as [|next_seg rest IH]; intros current; simpl.
  - reflexivity.
  - case_bool_decide; [by rewrite IH | reflexivity].
Qed.

Lemma merge_from_end current rest :
  end_time <$> last (merge_from current rest)
  = end_time <$> last (current :: rest).
Proof.
  revert current. induction rest as [|next_seg rest IH]; intros current.
  - reflexivity.
  - cbn [merge_from]. rewrite last_cons_cons. case_bool_decide.
    + rewrite IH. destruct rest as [|x rest]; [reflexivity|].
      by rewrite !last_cons_cons.
    + destruct (merge_from_head next_seg rest) as (first & out & Heq & _).
      rewrite Heq, last_cons_cons, <- Heq. apply IH.
Qed.

(** Two tidy texts joined by one space are tidy, and sanitizing the joined
    text changes nothing. *)
Lemma tidy_join (a b : list N) :
  tidy a → tidy b →
  sanitize_text (Some (strip a ++ text_of_string " " ++ strip b))
  = a ++ text_of_string " " ++ b
  ∧ tidy (a ++ text_of_string " " ++ b).
Proof.
  intros (Ha & Hca & Hta) (Hb & Hcb & Htb).
  rewrite (strip_fixed a Hta), (strip_fixed b Htb).
  assert (Hclean : clean (a ++ text_of_string " " ++ b)).
  { apply clean_app; [done|]. apply clean_app; [|done].
    unfold clean. by repeat constructor. }
  assert (Htrim : trimmed (a ++ text_of_string " " ++ b)).
  { destruct Hta as [Hhead _], Htb as [_ Hlast]. split; intros c.
    - destruct a as [|c0 a]; [done|]. apply Hhead.
    - rewrite !last_app. destruct (last b) as [c'|] eqn:Hl.
      + apply Hlast.
      + destruct b as [|c0 b]; [done|]. by rewrite last_cons in Hl;
          destruct (last b).
  }
  split.
  - rewrite sanitize_text_strip, (filter_clean _ Hclean). by apply strip_fixed.
  - split; [|done]. by destruct a.
Qed.

Lemma spaced_join (a b : list N) (rest : list (list N)) :
  spaced ((a ++ text_of_string " " ++ b) :: rest) = spaced (a :: b :: rest).
Proof.
  destruct rest as [|c rest]; [reflexivity|].
  cbn [spaced]. by rewrite <- !app_assoc.
Qed.

Lemma merge_from_texts current rest :
  Forall (λ seg, tidy (seg_text seg)) (current :: rest) →
  spaced (seg_text <$> merge_from current rest)
  = spaced (seg_text <$> current :: rest)
  ∧ Forall (λ seg, tidy (seg_text seg)) (merge_from current rest).
Proof.
  revert current. induction rest as [|next_seg rest IH]; intros current Hall.
  - done.
  - apply Forall_cons in Hall as [Hcur Hrest].
    pose proof Hrest as [Hnext Hrest']%Forall_cons.
    cbn [merge_from]. case_bool_decide.
    + destruct (tidy_join _ _ Hcur Hnext) as [Htext Htidy].
      destruct (IH (absorb current next_seg)) as [Hsp Hgood].
      { constructor; [|done]. cbn [absorb seg_text]. unfold text in *.
        by rewrite Htext. }
      split; [|done]. rewrite Hsp.
      cbn [fmap list_fmap absorb seg_text]. unfold text in *.
      rewrite Htext. apply spaced_join.
    + destruct (IH next_seg Hrest) as [Hsp Hgood].
      split; [|by constructor].
      destruct (merge_from_head next_seg rest) as (first & out & Heq & _).
      rewrite Heq in Hsp |- *. cbn [fmap list_fmap spaced] in *.
      by rewrite Hsp.
Qed.

End MergeRuns.

(** X5.  The merger reduces every run of one speaker to a single segment:
    the speakers of its result are the speakers of its argument with each
    run of repeats collapsed, so no two neighbours share a speaker.  The
    result is no longer than the argument, starts when the first segment
    starts and ends when the last one ends. *)
Theorem merge_collapses_speaker_runs (segments : list segment) :
  let merged := merge_consecutive_speaker_segments segments in
  speaker <$> merged = collapse (speaker <$> segments)
  ∧ no_adjacent_repeat merged
  ∧ (length merged ≤ length segments)%nat
  ∧ start_time <$> head merged = start_time <$> head segments
  ∧ end_time <$> last merged = end_time <$> last segments.
Proof.
  intros merged. subst merged.
  split; [|split; [apply merge_no_repeat|]];
    destruct segments as [|first rest]; try done; rewrite merge_unfold.
  - apply merge_from_speakers.
  - split; [apply merge_from_length|].
    split; [apply merge_from_start | apply merge_from_end].
Qed.

(** X6.  A list in which no two neighbours share a speaker comes back from
    the merger unchanged, texts included. *)
Theorem merge_keeps_alternating (segments : list segment) :
  no_adjacent_repeat segments →
  merge_consecutive_speaker_segments segments = segments.
Proof.
  intros Halt. destruct segments as [|first rest]; [reflexivity|].
  rewrite merge_unfold. by apply merge_from_fixed.
Qed.

Lemma merge_keeps_alternating_witness :
  merge_consecutive_speaker_segments [ heard "S2"; heard "S5"; heard "S2" ]
  = [ heard "S2"; heard "S5"; heard "S2" ].
Proof.
  apply merge_keeps_alternating. simpl. repeat split; discriminate.
Defined.

(** X7.  On segments whose texts are tidy (not empty, clean, trimmed), as
    the conversion loop produces them, merging keeps the transcript: the
    texts joined by single spaces read the same before and after, and the
    merged texts are tidy again. *)
Theorem merge_keeps_transcript (segments : list segment) :
  Forall (λ seg, tidy (seg_text seg)) segments →
  spaced (seg_text <$> merge_consecutive_speaker_segments segments)
  = spaced (seg_text <$> segments)
  ∧ Forall (λ seg, tidy (seg_text seg))
      (merge_consecutive_speaker_segments segments).
Proof.
  intros Hall. destruct segments as [|first rest]; [done|].
  rewrite merge_unfold. by apply merge_from_texts.
Qed.

Lemma merge_keeps_transcript_witness :
  spaced (seg_text <$> merge_consecutive_speaker_segments raw_speakers)
  = text_of_string "ok ok ok ok".
Proof.
  destruct (merge_keeps_transcript raw_speakers) as [Hsame _].
  - unfold raw_speakers, heard, tidy, clean, trimmed.
    repeat constructor; simpl; try discriminate; by intros c [= <-].
  - rewrite Hsame. reflexivity.
Defined.

(** * Further properties: the speaker label normalizer *)

Section LabelMap.
Context (segments : list segment).

(** The label the second loop of the normalizer reads for a speaker. *)
Local Abbreviation label_of s :=
  ((fold_left label_step segments (∅, 1)).1 !!! (s : string)).

Lemma label_of_position k s :
  first_appearances [] (speaker <$> segments) !! k = Some s →
  label_of s = ordinal_label k.
Proof.
  intros Hk.
  destruct (label_loop segments [] ∅ 1) as [_ Hnum].
  { intros x. rewrite elem_of_nil, lookup_empty. split; [done | by intros []]. }
  rewrite (lookup_total_correct _ _ _ (Hnum k s Hk)).
  unfold ordinal_label. do 2 f_equal. lia.
Qed.

Lemma ordinal_label_inj k1 k2 : ordinal_label k1 = ordinal_label k2 → k1 = k2.
Proof.
  unfold ordinal_label. intros Heq.
  apply (inj (String.append "Speaker ")) in Heq.
  apply (inj pretty) in Heq. lia.
Qed.

Lemma label_of_inj x y :
  x ∈ speaker <$> segments → y ∈ speaker <$> segments →
  label_of x = label_of y → x = y.
Proof.
  intros Hx Hy Heq.
  destruct (first_appearances_complete [] _ _ Hx) as [Hnil|Hfx];
    [by apply elem_of_nil in Hnil|].
  destruct (first_appearances_complete [] _ _ Hy) as [Hnil|Hfy];
    [by apply elem_of_nil in Hnil|].
  apply list_elem_of_lookup in Hfx as [kx Hkx].
  apply list_elem_of_lookup in Hfy as [ky Hky].
  rewrite (label_of_position _ _ Hkx), (label_of_position _ _ Hky) in Heq.
  apply ordinal_label_inj in Heq. subst ky. congruence.
Qed.

Lemma normalize_speakers :
  speaker <$> normalize_speaker_labels segments
  = (λ s, label_of s) <$> (speaker <$> segments).
Proof.
  rewrite normalize_unfold, <- !list_fmap_compose. reflexivity.
Qed.

End LabelMap.

Lemma first_appearances_fmap (g : string → string) seen speakers :
  (∀ x y, x ∈ seen ++ speakers → y ∈ seen ++ speakers → g x = g y → x = y) →
  first_appearances (g <$> seen) (g <$> speakers)
  = g <$> first_appearances seen speakers.
Proof.
  revert seen. induction speakers as [|s speakers IH]; intros seen Hinj.
  - reflexivity.
  - cbn [fmap list_fmap first_appearances].
    assert (Hmem : g s ∈ g <$> seen ↔ s ∈ seen).
    { split; [|apply list_elem_of_fmap_2].
      intros (x & Hgx & Hx)%list_elem_of_fmap.
      assert (s = x); [|by subst].
      apply Hinj; [|by apply elem_of_app; left | done].
      apply elem_of_app. right. apply list_elem_of_here. }
    assert (Hrest : ∀ seen', (∀ x, x ∈ seen' → x ∈ seen ∨ x = s) →
              ∀ x y, x ∈ seen' ++ speakers → y ∈ seen' ++ speakers →
                     g x = g y → x = y).
    { intros seen' Hsub x y Hx Hy. apply Hinj.
      - apply elem_of_app in Hx as [Hx|Hx].
        + destruct (Hsub x Hx) as [?| ->]; apply elem_of_app; [by left|].
          right. apply list_elem_of_here.
        + apply elem_of_app. right. by apply list_elem_of_further.
      - apply elem_of_app in Hy as [Hy|Hy].
        + destruct (Hsub y Hy) as [?| ->]; apply elem_of_app; [by left|].
          right. apply list_elem_of_here.
        + apply elem_of_app. right. by apply list_elem_of_further. }
    destruct (decide (s ∈ seen)) as [Hin|Hout].
    + rewrite !bool_decide_eq_true_2 by (done || by apply Hmem).
      apply IH, Hrest. auto.
    + rewrite !bool_decide_eq_false_2 by (done || by rewrite Hmem).
      cbn [fmap list_fmap]. f_equal.
      change (g s :: (g <$> seen)) with (g <$> (s :: seen)).
      apply IH, Hrest. intros x [->|Hx]%elem_of_cons; auto.
Qed.

Lemma first_appearances_set (speakers : list string) :
  size (list_to_set (C := gset string) speakers)
  = length (first_appearances [] speakers).
Proof.
  rewrite <- (size_list_to_set (C := gset string)
                (first_appearances [] speakers))
    by apply first_appearances_NoDup.
  f_equal. apply set_eq. intros s. rewrite !elem_of_list_to_set. split.
  - intros Hs. destruct (first_appearances_complete [] _ _ Hs) as [Hnil|H];
      [by apply elem_of_nil in Hnil | done].
  - by intros [Hs _]%first_appearances_elem.
Qed.

(** The first appearances of the normalized speakers are Speaker 1, 2, ...
    in this order, one for each distinct raw speaker. *)
Lemma normalized_first_appearances (segments : list segment) :
  first_appearances [] (speaker <$> normalize_speaker_labels segments)
  = ordinal_label
      <$> seq 0 (length (first_appearances [] (speaker <$> segments))).
Proof.
  rewrite normalize_speakers.
  change (@nil string) with
    ((λ s : string, (fold_left label_step segments (∅, 1)).1 !!! s) <$> [])
    at 1.
  rewrite first_appearances_fmap.
  2:{ intros x y Hx Hy. rewrite app_nil_l in Hx, Hy.
      by apply label_of_inj. }
  apply list_eq. intros k. rewrite !list_lookup_fmap.
  destruct (first_appearances [] (speaker <$> segments) !! k) as [s|] eqn:Hk.
  - rewrite lookup_seq_lt by (by eapply lookup_lt_Some).
    simpl. f_equal. by apply label_of_position.
  - rewrite lookup_seq_ge by (by apply lookup_ge_None). reflexivity.
Qed.

Lemma normalize_no_repeat (segments : list segment) :
  no_adjacent_repeat segments →
  no_adjacent_repeat (normalize_speaker_labels segments).
Proof.
  rewrite normalize_unfold.
  set (label_of := λ s : string, (fold_left label_step segments (∅, 1)).1 !!! s).
  assert (Hsub : ∀ l, (∀ seg, seg ∈ l → seg ∈ segments) →
            no_adjacent_repeat l →
            no_adjacent_repeat
              ((λ seg, with_speaker seg (label_of (speaker seg))) <$> l)).
  { induction l as [|a [|b l] IH]; intros Hin Halt; [done..|].
    destruct Halt as [Hne Halt].
    change (label_of (speaker a) ≠ label_of (speaker b)
            ∧ no_adjacent_repeat
                ((λ seg, with_speaker seg (label_of (speaker seg))) <$> b :: l)).
    split.
    - intros Heq. apply Hne.
      apply (label_of_inj segments); [| |exact Heq];
        apply list_elem_of_fmap_2, Hin;
        [apply list_elem_of_here
        |apply list_elem_of_further, list_elem_of_here].
    - apply IH; [|done]. intros seg Hseg.
      by apply Hin, list_elem_of_further. }
  by apply Hsub.
Qed.

(** X8.  Normalizing twice is normalizing once: the labels Speaker 1,
    Speaker 2, ... are already in order of first appearance. *)
Theorem normalize_idempotent (segments : list segment) :
  normalize_speaker_labels (normalize_speaker_labels segments)
  = normalize_speaker_labels segments.
Proof.
  rewrite (normalize_unfold (normalize_speaker_labels segments)).
  etrans; [|apply list_fmap_id].
  apply list_fmap_ext. intros i seg Hi.
  assert (Hseg : seg ∈ normalize_speaker_labels segments)
    by (apply list_elem_of_lookup; eauto).
  destruct (speaker_map_covers _ seg Hseg) as (k & Hk & Hlabel).
  rewrite normalized_first_appearances, list_lookup_fmap in Hk.
  destruct (seq 0 _ !! k) as [k'|] eqn:Hseq; [|done].
  apply lookup_seq in Hseq as [-> _]. simpl in Hk. injection Hk as Hk.
  rewrite (lookup_total_correct _ _ _ Hlabel), Hk.
  by destruct seg.
Qed.

(** X9.  Label bijection: the normalized speakers, taken in order of first
    appearance, are exactly Speaker 1 to Speaker n for the n distinct raw
    speakers; the number of distinct speakers is unchanged, and segments
    whose neighbours differed in speaker still do. *)
Theorem normalize_numbers_distinct_speakers (segments : list segment) :
  let n := length (first_appearances [] (speaker <$> segments)) in
  let normalized := normalize_speaker_labels segments in
  first_appearances [] (speaker <$> normalized) = ordinal_label <$> seq 0 n
  ∧ size (list_to_set (C := gset string) (speaker <$> normalized))
    = size (list_to_set (C := gset string) (speaker <$> segments))
  ∧ (no_adjacent_repeat segments → no_adjacent_repeat normalized).
Proof.
  intros n normalized. subst n normalized.
  split; [apply normalized_first_appearances|].
  split; [|apply normalize_no_repeat].
  rewrite !first_appearances_set, normalized_first_appearances.
  by rewrite length_fmap, length_seq.
Qed.

Lemma normalize_numbers_witness :
  no_adjacent_repeat
    (normalize_speaker_labels [ heard "S2"; heard "S5"; heard "S2" ]).
Proof.
  destruct (normalize_numbers_distinct_speakers
              [ heard "S2"; heard "S5"; heard "S2" ]) as (_ & _ & Halt).
  apply Halt. simpl. repeat split; discriminate.
Defined.

(** * Further properties: the transcription as a whole *)

Section Pipeline.

Lemma Forall_over_fmap {A B} (f : A → B) (P : B → Prop) (l : list A) :
  Forall (λ x, P (f x)) l ↔ Forall P (f <$> l).
Proof. symmetry. apply Forall_fmap. Qed.

Lemma collapse_Forall (P : string → Prop) (l : list string) :
  Forall P l → Forall P (collapse l).
Proof.
  induction l as [|a [|b l] IH]; intros Hall; [done..|].
  cbn [collapse]. apply Forall_cons in Hall as [Ha Hrest].
  case_bool_decide; [by apply IH|]. constructor; [done | by apply IH].
Qed.

Lemma first_appearances_length seen speakers :
  (length (first_appearances seen speakers) ≤ length speakers)%nat.
Proof.
  revert seen. induction speakers as [|s speakers IH]; intros seen; simpl.
  - lia.
  - case_bool_decide; [specialize (IH seen) | specialize (IH (s :: seen))];
      simpl; lia.
Qed.

Lemma merge_speakers_named (segments : list segment) :
  Forall (λ seg, speaker seg ≠ ""%string) segments →
  Forall (λ seg, speaker seg ≠ ""%string)
    (merge_consecutive_speaker_segments segments).
Proof.
  intros Hall. apply (Forall_over_fmap speaker (λ s, s ≠ ""%string)).
  destruct segments as [|first rest]; [constructor|].
  rewrite merge_unfold, merge_from_speakers.
  apply collapse_Forall.
  by apply (Forall_over_fmap speaker (λ s, s ≠ ""%string)) in Hall.
Qed.

Lemma merge_length (segments : list segment) :
  (length (merge_consecutive_speaker_segments segments) ≤ length segments)%nat.
Proof.
  destruct segments as [|first rest]; [done|].
  rewrite merge_unfold. apply merge_from_length.
Qed.

Lemma merge_texts (segments : list segment) :
  Forall (λ seg, tidy (seg_text seg)) segments →
  spaced (seg_text <$> merge_consecutive_speaker_segments segments)
  = spaced (seg_text <$> segments)
  ∧ Forall (λ seg, tidy (seg_text seg))
      (merge_consecutive_speaker_segments segments).
Proof.
  intros Hall. destruct segments as [|first rest]; [done|].
  rewrite merge_unfold. by apply merge_from_texts.
Qed.

Lemma normalize_texts (segments : list segment) :
  seg_text <$> normalize_speaker_labels segments = seg_text <$> segments.
Proof. rewrite normalize_unfold, <- list_fmap_compose. reflexivity. Qed.

Lemma normalize_length (segments : list segment) :
  length (normalize_speaker_labels segments) = length segments.
Proof. by rewrite normalize_unfold, length_fmap. Qed.

Lemma normalize_speakers_named (segments : list segment) :
  Forall (λ seg, speaker seg ≠ ""%string)
    (normalize_speaker_labels segments).
Proof.
  apply Forall_forall. intros seg Hseg.
  assert (Hsp : speaker seg
                ∈ first_appearances []
                    (speaker <$> normalize_speaker_labels segments)).
  { destruct (first_appearances_complete [] (speaker <$> normalize_speaker_labels segments)
                (speaker seg)) as [Hnil|H];
      [by apply list_elem_of_fmap_2 | by apply elem_of_nil in Hnil | done]. }
  rewrite normalized_first_appearances in Hsp.
  apply list_elem_of_fmap in Hsp as (k & -> & _). discriminate.
Qed.

(** The result of a run that received tokens. *)
Lemma transcribe_audio_result response merge_threshold normalize_speakers :
  default [] (tj_tokens response) ≠ [] →
  ∃ r, transcribe_audio response merge_threshold normalize_speakers = inr r
       ∧ tr_speaker_segments r
         = (let merged :=
              merge_consecutive_speaker_segments
                (convert_segments
                   (build_segments merge_threshold
                      (default [] (tj_tokens response)))).1 in
            if normalize_speakers then normalize_speaker_labels merged
            else merged)
       ∧ tr_speaker_count r
         = size (list_to_set (C := gset string)
                   (speaker <$> tr_speaker_segments r)).
Proof.
  intros Htokens. unfold transcribe_audio, transcribe_body.
  rewrite (nonempty_true _ Htokens).
  destruct (convert_segments _) as [converted total_duration].
  eexists. split; [reflexivity|]. split; reflexivity.
Qed.

End Pipeline.

(** What holds of the segments of every run that received tokens. *)
Lemma transcribe_audio_invariants (response : transcript_json)
    (merge_threshold : float) (normalize_speakers : bool) :
  default [] (tj_tokens response) ≠ [] →
  ∃ r,
    transcribe_audio response merge_threshold normalize_speakers = inr r
    ∧ no_adjacent_repeat (tr_speaker_segments r)
    ∧ Forall (λ seg, tidy (seg_text seg) ∧ speaker seg ≠ ""%string)
        (tr_speaker_segments r)
    ∧ (length (tr_speaker_segments r)
       ≤ length (default [] (tj_tokens response)))%nat
    ∧ spaced (seg_text <$> tr_speaker_segments r)
      = spaced
          (filter (λ t, t ≠ [])
             ((λ seg, sanitize_text (Some (ts_text seg)))
                <$> build_segments merge_threshold
                      (default [] (tj_tokens response))))
    ∧ tr_speaker_count r
      = length (first_appearances [] (speaker <$> tr_speaker_segments r))
    ∧ (tr_speaker_count r ≤ length (tr_speaker_segments r))%nat
    ∧ (normalize_speakers = true →
       first_appearances [] (speaker <$> tr_speaker_segments r)
       = ordinal_label <$> seq 0 (tr_speaker_count r)).
Proof.
  intros Htokens.
  destruct (transcribe_audio_result response merge_threshold
              normalize_speakers Htokens) as (r & Hr & Hsegs & Hcount).
  exists r. split; [exact Hr|].
  set (tokens := default [] (tj_tokens response)) in *.
  set (built := build_segments merge_threshold tokens) in *.
  destruct (convert_loop_text (enumerate built) ([], 0%float))
    as [Htext Hgood].
  cbv zeta in Htext, Hgood.
  change (seg_text <$> ([], 0%float).1) with (@nil text) in Htext.
  rewrite app_nil_l in Htext.
  fold (convert_segments built) in Htext, Hgood.
  assert (Hitems : (λ item : nat * token_segment,
                      sanitize_text (Some (ts_text item.2)))
                     <$> enumerate built
                   = (λ seg, sanitize_text (Some (ts_text seg))) <$> built).
  { rewrite <- (enumerate_snd built) at 2. by rewrite <- list_fmap_compose. }
  rewrite Hitems in Htext. clear Hitems.
  specialize (Hgood ltac:(constructor)).
  set (converted := (convert_segments built).1) in *.
  assert (Hlen : (length converted ≤ length tokens)%nat).
  { rewrite <- (length_fmap seg_text), Htext.
    etrans; [apply length_filter|]. rewrite length_fmap.
    destruct (token_loop_text merge_threshold tokens ([], None))
      as (_ & _ & Hbuilt).
    cbv zeta in Hbuilt. subst built. by rewrite build_segments_flush. }
  assert (Htidy : Forall (λ seg, tidy (seg_text seg)) converted)
    by (eapply Forall_impl; [exact Hgood | by intros seg [? _]]).
  assert (Hnamed : Forall (λ seg, speaker seg ≠ ""%string) converted)
    by (eapply Forall_impl; [exact Hgood | by intros seg [_ ?]]).
  destruct (merge_texts converted Htidy) as [Hspaced Hmtidy].
  pose proof (merge_speakers_named converted Hnamed) as Hmnamed.
  pose proof (merge_no_repeat converted) as Hmalt.
  pose proof (merge_length converted) as Hmlen.
  set (merged := merge_consecutive_speaker_segments converted) in *.
  cbv zeta in Hsegs.
  rewrite Hcount, first_appearances_set.
  assert (Hfinal :
    no_adjacent_repeat (tr_speaker_segments r)
    ∧ Forall (λ seg, tidy (seg_text seg) ∧ speaker seg ≠ ""%string)
        (tr_speaker_segments r)
    ∧ length (tr_speaker_segments r) = length merged
    ∧ seg_text <$> tr_speaker_segments r = seg_text <$> merged).
  { rewrite Hsegs. destruct normalize_speakers.
    - split; [by apply normalize_no_repeat|].
      split; [|split; [apply normalize_length | apply normalize_texts]].
      apply Forall_and. split; [|apply normalize_speakers_named].
      apply (Forall_over_fmap seg_text tidy). rewrite normalize_texts.
      by apply (Forall_over_fmap seg_text tidy).
    - split; [done|]. split; [|done]. by apply Forall_and. }
  destruct Hfinal as (Halt & Hall & Hsame & Htexts).
  split; [exact Halt|]. split; [exact Hall|].
  split; [lia|].
  split; [by rewrite Htexts, Hspaced, Htext|].
  split; [reflexivity|].
  split.
  { etrans; [apply first_appearances_length|]. by rewrite length_fmap. }
  intros ->. rewrite Hsegs, normalized_first_appearances.
  by rewrite length_fmap, length_seq.
Qed.

(** X10.  A run that received at least one token returns a result, and in
    its segments: no two neighbours share a speaker; every text is not
    empty, clean and trimmed and every speaker is named; there are at most
    as many segments as tokens; the texts joined by single spaces are the
    trimmed texts of the token segments, blank ones left out, joined the
    same way; [speaker_count] is the number of distinct speakers; and with
    [normalize_speakers] the speakers, in order of first appearance, are
    Speaker 1 to Speaker [speaker_count]. *)
Theorem transcribe_audio_segments (response : transcript_json)
    (merge_threshold : float) (normalize_speakers : bool) :
  default [] (tj_tokens response) ≠ [] →
  ∃ r,
    transcribe_audio response merge_threshold normalize_speakers = inr r
    ∧ no_adjacent_repeat (tr_speaker_segments r)
    ∧ Forall (λ seg, tidy (seg_text seg) ∧ speaker seg ≠ ""%string)
        (tr_speaker_segments r)
    ∧ (length (tr_speaker_segments r)
       ≤ length (default [] (tj_tokens response)))%nat
    ∧ spaced (seg_text <$> tr_speaker_segments r)
      = spaced
          (filter (λ t, t ≠ [])
             ((λ seg, sanitize_text (Some (ts_text seg)))
                <$> build_segments merge_threshold
                      (default [] (tj_tokens response))))
    ∧ tr_speaker_count r
      = length (first_appearances [] (speaker <$> tr_speaker_segments r))
    ∧ (tr_speaker_count r ≤ length (tr_speaker_segments r))%nat
    ∧ (normalize_speakers = true →
       first_appearances [] (speaker <$> tr_speaker_segments r)
       = ordinal_label <$> seq 0 (tr_speaker_count r)).
Proof.
  intros Htokens.
  by apply transcribe_audio_invariants.
Qed.

Lemma transcribe_audio_segments_witness :
  ∃ r, transcribe_audio {| tj_tokens := Some greeting_tokens; tj_text := None |}
         0.5 true = inr r
       ∧ no_adjacent_repeat (tr_speaker_segments r)
       ∧ tr_speaker_count r
         = length (first_appearances [] (speaker <$> tr_speaker_segments r)).
Proof.
  destruct (transcribe_audio_segments
              {| tj_tokens := Some greeting_tokens; tj_text := None |} 0.5 true)
    as (r & Hr & Halt & _ & _ & _ & Hcount & _).
  - discriminate.
  - exists r. split; [exact Hr|]. split; [exact Halt | exact Hcount].
Defined.

(** * Further properties: the score compiler *)

Section GateList.
Context (scoring_results : gmap string judgment).

Lemma fatal_step_entry acc item :
  fatal_step scoring_results acc item
  = acc ++ (fatal_entry
              <$> filter (λ item, raw_score scoring_results (Some item.1) = 0)
                    [item]).
Proof.
  destruct item as [k descr]. unfold fatal_step.
  fold (raw_score scoring_results (Some k)).
  rewrite filter_cons, filter_nil. cbn [fst].
  destruct (Z.eqb_spec (raw_score scoring_results (Some k)) (-1)) as [E1|E1].
  { rewrite decide_False by lia. by rewrite app_nil_r. }
  destruct (Z.eqb_spec (raw_score scoring_results (Some k)) 0) as [E0|E0].
  - by rewrite decide_True.
  - rewrite decide_False by done. by rewrite app_nil_r.
Qed.

Lemma fatal_fold_entries items acc :
  fold_left (fatal_step scoring_results) items acc
  = acc ++ (fatal_entry
              <$> filter (λ item, raw_score scoring_results (Some item.1) = 0)
                    items).
Proof.
  revert acc. induction items as [|item items IH]; intros acc; cbn [fold_left].
  - by rewrite filter_nil, app_nil_r.
  - rewrite IH, fatal_step_entry, <- app_assoc, <- fmap_app.
    by rewrite <- filter_app.
Qed.

Lemma check_fatal_parameters_entries rb :
  check_fatal_parameters scoring_results rb
  = (bool_decide (failed_entries scoring_results ≠ []),
     failed_entries scoring_results).
Proof.
  unfold check_fatal_parameters, failed_entries.
  rewrite fatal_fold_entries, app_nil_l. f_equal.
  destruct (fatal_entry <$> _) as [|e l]; [reflexivity|].
  by rewrite bool_decide_eq_true_2.
Qed.

End GateList.

(** X11.  The gate's list: [check_fatal_parameters] lists, in the fixed
    order of the four fatal ids, "description (id)" for exactly those whose
    raw score is 0 (a missing score counts, an NA of -1 never does), and
    triggers when the list is not empty.  The report then carries the list,
    the reason built from it and a total of 0; with an empty list it carries
    neither list nor reason. *)
Theorem failed_fatal_parameters_listed (model : string)
    (scoring_results : gmap string judgment) (rb : rubric)
    (transcript_length num_segments : Z) :
  let failed := failed_entries scoring_results in
  let r := compile_final_report model scoring_results rb transcript_length
             num_segments in
  check_fatal_parameters scoring_results rb
  = (bool_decide (failed ≠ []), failed)
  ∧ (length failed ≤ 4)%nat
  ∧ (failed = [] →
     md_fatal_parameter_failed (metadata r) = false
     ∧ failed_fatal_parameters r = None ∧ fatal_error_reason r = None)
  ∧ (failed ≠ [] →
     md_fatal_parameter_failed (metadata r) = true
     ∧ total_score r = 0
     ∧ failed_fatal_parameters r = Some failed
     ∧ fatal_error_reason r
       = Some ("Score set to 0 due to FATAL parameter failure(s): "
                 +:+ join ", " failed)%string).
Proof.
  intros failed r. subst failed r.
  pose proof (check_fatal_parameters_entries scoring_results rb) as Hgate.
  split; [exact Hgate|]. split.
  { unfold failed_entries. rewrite length_fmap.
    etrans; [apply length_filter|]. reflexivity. }
  unfold compile_final_report. rewrite Hgate. split.
  - intros Hnone. rewrite bool_decide_eq_false_2 by (by intros H; apply H).
    done.
  - intros Hsome. rewrite bool_decide_eq_true_2 by done. done.
Qed.

Lemma failed_fatal_parameters_witness :
  failed_fatal_parameters
    (compile_final_report "gpt-4o-mini" (payload_with_brand_intro 0)
       opening_rubric 0 0)
  = Some [ "No introduction of brand (brand_intro)"%string ].
Proof.
  destruct (failed_fatal_parameters_listed "gpt-4o-mini"
              (payload_with_brand_intro 0) opening_rubric 0 0)
    as (_ & _ & _ & Hsome).
  destruct Hsome as (_ & _ & Hlist & _).
  - by vm_compute.
  - rewrite Hlist. by vm_compute.
Defined.

Section Bounds.
Context (scoring_results : gmap string judgment).

Lemma compiled_within_bounds sub d :
  compiled scoring_results sub d →
  0 ≤ default 0 (sp_max_points sub) →
  0 ≤ pd_score d ≤ pd_max_points d.
Proof.
  intros [_ Hmax _ _ Hfull Hfloor Hcap Hin] Hm. rewrite Hmax.
  destruct (Z_lt_le_dec (raw_score scoring_results (sp_id sub)) (-1)) as [H1|H1].
  { rewrite Hfloor by done. lia. }
  destruct (Z.eq_dec (raw_score scoring_results (sp_id sub)) (-1)) as [H2|H2].
  { rewrite Hfull by done. lia. }
  destruct (Z_lt_le_dec (default 0 (sp_max_points sub))
              (raw_score scoring_results (sp_id sub))) as [H3|H3].
  - rewrite Hcap by lia. lia.
  - rewrite Hin by lia. lia.
Qed.

Lemma compiled_all_within_bounds subs ds :
  Forall2 (compiled scoring_results) subs ds →
  Forall (λ sub, 0 ≤ default 0 (sp_max_points sub)) subs →
  Forall (λ d, 0 ≤ pd_score d ≤ pd_max_points d) ds.
Proof.
  induction 1 as [|sub d subs ds Hd _ IH]; intros Hsubs; [constructor|].
  apply Forall_cons in Hsubs as [Hsub Hsubs].
  constructor; [by eapply compiled_within_bounds | by apply IH].
Qed.

Lemma nonfatal_budget_cons d ds :
  nonfatal_budget (d :: ds)
  = (if pd_is_fatal d then 0 else pd_max_points d) + nonfatal_budget ds.
Proof.
  unfold nonfatal_budget. rewrite filter_cons.
  destruct (decide (pd_is_fatal d = false)) as [E|E].
  - rewrite E. reflexivity.
  - destruct (pd_is_fatal d); [reflexivity | done].
Qed.

Lemma nonfatal_sum_bounds ds :
  Forall (λ d, 0 ≤ pd_score d ≤ pd_max_points d) ds →
  0 ≤ nonfatal_sum ds ≤ nonfatal_budget ds.
Proof.
  induction 1 as [|d ds Hd _ IH].
  - done.
  - rewrite nonfatal_sum_cons, nonfatal_budget_cons.
    destruct (pd_is_fatal d); lia.
Qed.

End Bounds.

(** X12.  Bounds: on a rubric whose maxima are not negative, every resolved
    score of the report lies between 0 and its maximum, whatever the oracle
    sent, and the total lies between 0 and the sum of the maxima of the
    non-fatal entries. *)
Theorem scores_within_bounds (model : string)
    (scoring_results : gmap string judgment) (rb : rubric)
    (transcript_length num_segments : Z) :
  Forall (λ sub, 0 ≤ default 0 (sp_max_points sub))
    (rubric_sub_parameters rb) →
  let r := compile_final_report model scoring_results rb transcript_length
             num_segments in
  Forall (λ d, 0 ≤ pd_score d ≤ pd_max_points d) (criteria_scores r)
  ∧ 0 ≤ total_score r ≤ nonfatal_budget (criteria_scores r).
Proof.
  intros Hrubric r.
  pose proof (report_entries_compiled model scoring_results rb
                transcript_length num_segments) as Hall.
  fold r in Hall.
  assert (Hentries : Forall (λ d, 0 ≤ pd_score d ≤ pd_max_points d)
                       (criteria_scores r))
    by (by eapply compiled_all_within_bounds).
  split; [exact Hentries|].
  pose proof (nonfatal_sum_bounds _ Hentries) as Hsum.
  destruct (report_fields model scoring_results rb transcript_length
              num_segments) as (_ & _ & Hcrit & Htot & _).
  destruct (compile_categories_inv scoring_results rb) as (_ & Hawarded & _).
  fold r in Hcrit, Htot. rewrite Htot.
  destruct (check_fatal_parameters scoring_results rb).1; [lia|].
  rewrite Hawarded, <- Hcrit. exact Hsum.
Qed.

Lemma scores_within_bounds_witness :
  0 ≤ total_score
        (compile_final_report "gpt-4o-mini" (payload_with_brand_intro 99)
           opening_rubric 0 0)
    ≤ 5.
Proof.
  destruct (scores_within_bounds "gpt-4o-mini" (payload_with_brand_intro 99)
              opening_rubric 0 0) as [_ Htotal].
  - unfold opening_rubric, rubric_sub_parameters. simpl.
    repeat constructor; simpl; lia.
  - assert (Hbudget : nonfatal_budget
              (criteria_scores
                 (compile_final_report "gpt-4o-mini"
                    (payload_with_brand_intro 99) opening_rubric 0 0)) = 5)
      by (by vm_compute).
    rewrite Hbudget in Htotal. exact Htotal.
Defined.

(** X13.  A triggered gate is reported as a score of zero throughout: the
    total is 0 and the percentage is the float 0.0 under a positive budget
    (the integer 0 otherwise), while the entries keep the scores they
    resolved to. *)
Theorem fatal_failure_zero_percent (model : string)
    (scoring_results : gmap string judgment) (rb : rubric)
    (transcript_length num_segments : Z) :
  let r := compile_final_report model scoring_results rb transcript_length
             num_segments in
  md_fatal_parameter_failed (metadata r) = true →
  total_score r = 0
  ∧ percentage r = (if total_points r >? 0 then Float 0 else Int 0)
  ∧ criteria_scores r
    = ca_detailed_scores (compile_categories scoring_results rb).
Proof.
  intros r Hgate.
  destruct (report_fields model scoring_results rb transcript_length
              num_segments) as (Hflag & _ & Hcrit & Htot & Hpct).
  fold r in Hflag, Hcrit, Htot, Hpct.
  rewrite Hgate in Hflag. rewrite <- Hflag in Htot.
  split; [exact Htot|]. split; [|exact Hcrit].
  rewrite Hpct, Htot. unfold percent.
  destruct (total_points r) as [|budget|budget]; reflexivity.
Qed.

Lemma fatal_failure_zero_percent_witness :
  percentage
    (compile_final_report "gpt-4o-mini" (payload_with_brand_intro 0)
       opening_rubric 0 0)
  = Float 0.
Proof.
  destruct (fatal_failure_zero_percent "gpt-4o-mini"
              (payload_with_brand_intro 0) opening_rubric 0 0)
    as (_ & Hpct & _).
  - by vm_compute.
  - exact Hpct.
Defined.

(** * Further properties: discrete scoring *)

Section DiscreteFacts.
Context (lower upper : text → text).
Context {value : Type}.
Context (str_of : value → text) (truthy : value → bool).
Context (as_dict : value → option (gmap string value)).

Lemma valid_answer_valid (answer : text) :
  valid_answer answer
  ∈ [ text_of_string "yes"; text_of_string "no"; text_of_string "na" ].
Proof.
  unfold valid_answer. case_bool_decide; [done|].
  do 2 apply list_elem_of_further. apply list_elem_of_here.
Qed.

(** The dicts a loop over ids fills: an id of the list has its entry, any
    other key is as before. *)
Lemma record_answers_lookup (entry : string → text * text) ids acc cid :
  (foldr (record_answer entry) acc ids).1 !! cid
  = (if bool_decide (cid ∈ ids) then Some (valid_answer (entry cid).1)
     else acc.1 !! cid)
  ∧ (foldr (record_answer entry) acc ids).2 !! cid
    = (if bool_decide (cid ∈ ids) then Some (entry cid).2 else acc.2 !! cid).
Proof.
  induction ids as [|id ids [IH1 IH2]]; [done|].
  cbn [foldr]. unfold record_answer at 1 3. cbn [fst snd].
  destruct (decide (id = cid)) as [->|Hne].
  - rewrite !lookup_insert_eq.
    by rewrite bool_decide_eq_true_2 by apply list_elem_of_here.
  - rewrite !lookup_insert_ne, IH1, IH2 by done.
    assert (Hmem : cid ∈ id :: ids ↔ cid ∈ ids).
    { rewrite elem_of_cons. split; [intros [->|?]; done | auto]. }
    by rewrite (bool_decide_ext _ _ Hmem).
Qed.

Lemma parse_scoring_response_lookup raw rb :
  ∃ entry answers rationales,
    parse_scoring_response lower str_of truthy as_dict raw rb
    = {| sd_answers := Some answers; sd_rationales := Some rationales |}
    ∧ (∀ cid,
         answers !! cid
         = if bool_decide (cid ∈ cr_id <$> r1_criteria rb)
           then Some (valid_answer (entry cid).1) else None)
    ∧ (∀ cid,
         rationales !! cid
         = if bool_decide (cid ∈ cr_id <$> r1_criteria rb)
           then Some (entry cid).2 else None).
Proof.
  unfold parse_scoring_response.
  set (ids := list_to_set (cr_id <$> r1_criteria rb) : gset string).
  set (entry := if bool_decide _ then _ else _).
  set (filled := set_fold (record_answer entry) (∅, ∅) ids).
  assert (Hlook : ∀ cid,
            filled.1 !! cid
            = (if bool_decide (cid ∈ cr_id <$> r1_criteria rb)
               then Some (valid_answer (entry cid).1) else None)
            ∧ filled.2 !! cid
              = (if bool_decide (cid ∈ cr_id <$> r1_criteria rb)
                 then Some (entry cid).2 else None)).
  { intros cid. subst filled. unfold set_fold. simpl.
    destruct (record_answers_lookup entry (elements ids) (∅, ∅) cid)
      as [H1 H2].
    rewrite H1, H2. simpl. rewrite !lookup_empty.
    assert (Hmem : cid ∈ elements ids ↔ cid ∈ cr_id <$> r1_criteria rb).
    { rewrite elem_of_elements. subst ids. apply elem_of_list_to_set. }
    by rewrite (bool_decide_ext _ _ Hmem). }
  assert (Hnone : ids ∖ dom filled.1 = ∅).
  { apply set_eq. intros cid. rewrite elem_of_difference, elem_of_dom.
    destruct (Hlook cid) as [-> _]. subst ids.
    rewrite elem_of_list_to_set. split; [|by intros ?%elem_of_empty].
    intros [Hin Hout]. rewrite bool_decide_eq_true_2 in Hout by done.
    destruct Hout. eauto. }
  rewrite Hnone, set_fold_empty.
  exists entry, filled.1, filled.2. split; [done|].
  split; intros cid; apply Hlook.
Qed.

Lemma match_level_find response levels :
  match list_find (λ lv, lower (lv_label lv) = response) levels with
  | Some (_, lv) =>
      match_level lower upper response levels
      = (lv_points lv,
         text_of_string "Scored '" ++ upper response ++ text_of_string "': "
           ++ join_text (text_of_string ", ") (lv_descriptors lv))
  | None => match_level lower upper response levels = (0, [])
  end.
Proof.
  induction levels as [|lv levels IH]; [reflexivity|].
  cbn [match_level list_find]. case_bool_decide as Hlv.
  - by rewrite decide_True.
  - rewrite decide_False by done.
    destruct (list_find _ levels) as [[i lv']|]; exact IH.
Qed.

Lemma sum_points_from acc entries :
  foldl (λ acc c, acc + c1_points_awarded c) acc entries
  = acc + foldr Z.add 0 (c1_points_awarded <$> entries).
Proof.
  revert acc. induction entries as [|e entries IH]; intros acc.
  - simpl. lia.
  - cbn [foldl]. rewrite IH, fmap_cons. cbn [foldr]. lia.
Qed.

Lemma parsed_answers_cover_rubric (raw : gmap string value) (rb : rubric_v1) :
  ∃ answers rationales,
    parse_scoring_response lower str_of truthy as_dict raw rb
    = {| sd_answers := Some answers; sd_rationales := Some rationales |}
    ∧ dom answers = list_to_set (cr_id <$> r1_criteria rb)
    ∧ dom rationales = list_to_set (cr_id <$> r1_criteria rb)
    ∧ map_Forall
        (λ _ answer,
           answer ∈ [ text_of_string "yes"; text_of_string "no";
                      text_of_string "na" ])
        answers.
Proof.
  destruct (parse_scoring_response_lookup raw rb)
    as (entry & answers & rationales & Heq & Hans & Hrat).
  exists answers, rationales. split; [exact Heq|].
  assert (Hdom : ∀ (m : gmap string text) (f : string → text),
            (∀ cid, m !! cid
                    = if bool_decide (cid ∈ cr_id <$> r1_criteria rb)
                      then Some (f cid) else None) →
            dom m = list_to_set (cr_id <$> r1_criteria rb)).
  { intros m f Hm. apply set_eq. intros cid.
    rewrite elem_of_dom, elem_of_list_to_set, Hm.
    case_bool_decide as Hin.
    - split; [done | eauto].
    - split; [by intros [] | done]. }
  split; [exact (Hdom answers (λ cid, valid_answer (entry cid).1) Hans)|].
  split; [exact (Hdom rationales (λ cid, (entry cid).2) Hrat)|].
  intros cid answer Hcid. rewrite Hans in Hcid.
  case_bool_decide; [|done]. injection Hcid as <-.
  apply valid_answer_valid.
Qed.

End DiscreteFacts.

(** X14.  The discrete validator: whatever JSON object the oracle returned,
    [score_with_openai] hands over one answer and one rationale for each
    criterion id of the rubric and for no other key, and every answer is
    one of yes, no and na. *)
Theorem parsed_answers_valid (lower : text → text) {value : Type}
    (str_of : value → text) (truthy : value → bool)
    (as_dict : value → option (gmap string value))
    (raw : gmap string value) (rb : rubric_v1) :
  ∃ answers rationales,
    parse_scoring_response lower str_of truthy as_dict raw rb
    = {| sd_answers := Some answers; sd_rationales := Some rationales |}
    ∧ dom answers = list_to_set (cr_id <$> r1_criteria rb)
    ∧ dom rationales = list_to_set (cr_id <$> r1_criteria rb)
    ∧ map_Forall
        (λ _ answer,
           answer ∈ [ text_of_string "yes"; text_of_string "no";
                      text_of_string "na" ])
        answers.
Proof.
  apply parsed_answers_cover_rubric.
Qed.

(** X15.  Discrete conversion: there is one entry for each criterion of the
    rubric, in the rubric's order, with its id, name and maximum; the points
    are those of the first level whose lowered label is the lowered answer
    (a missing answer reads as na), [score] repeats them, and an answer that
    matches no level is awarded 0 points. *)
Theorem convert_takes_first_matching_level (lower upper : text → text)
    (yes_no_na_scores : gmap string text) (rb : rubric_v1)
    (rationales : option (gmap string text)) :
  Forall2
    (λ c e,
       let response :=
         lower (default (text_of_string "na") (yes_no_na_scores !! cr_id c)) in
       c1_id e = cr_id c ∧ c1_name e = cr_name c
       ∧ c1_max_points e = cr_max_points c
       ∧ c1_response e = upper response
       ∧ c1_score e = c1_points_awarded e
       ∧ c1_points_awarded e
         = match list_find (λ lv, lower (lv_label lv) = response)
                   (cr_levels c) with
           | Some (_, lv) => lv_points lv
           | None => 0
           end)
    (r1_criteria rb)
    (convert_yes_no_na_to_scores lower upper yes_no_na_scores rb rationales).
Proof.
  unfold convert_yes_no_na_to_scores.
  apply Forall2_fmap_r, Forall_Forall2_diag, Forall_forall.
  intros c _. unfold compose, convert_criterion. cbv beta zeta.
  pose proof (match_level_find lower upper
                (lower (default (text_of_string "na")
                          (yes_no_na_scores !! cr_id c)))
                (cr_levels c)) as Hfind.
  destruct (list_find _ (cr_levels c)) as [[i lv]|];
    rewrite Hfind; cbn [c1_id c1_name c1_max_points c1_response c1_score
                          c1_points_awarded]; done.
Qed.

(** * Further properties: the discrete report and the endpoints *)

Section DiscreteReport.
Context (lower upper : text → text).
Context {value : Type}.
Context (str_of : value → text) (truthy : value → bool).
Context (as_dict : value → option (gmap string value)).
Context (model : string) {knowledge : Type}.
Context (load_rubric : option string → result rubric_v1).
Context (load_project_knowledge : result knowledge).
Context (api_key_set : bool).
Context (chat : text → rubric_v1 → knowledge → list segment →
                chat_outcome value).

Local Abbreviation scored data rubric_path :=
  (score_transcript lower upper str_of truthy as_dict model load_rubric
     load_project_knowledge api_key_set chat data rubric_path).

Lemma score_transcript_blank data rubric_path :
  strip (default [] (td_transcription data)) = [] →
  scored data rubric_path = inl (ValueError "Transcript is empty or missing").
Proof.
  intros Hblank. unfold score_transcript. rewrite Hblank.
  by rewrite orb_true_r.
Qed.

(** [score_with_openai] raises nothing but [ValueError]. *)
Lemma score_with_openai_raises outcome rb e :
  score_with_openai lower str_of truthy as_dict api_key_set outcome rb = inl e →
  ∃ msg, e = ValueError msg.
Proof.
  unfold score_with_openai. destruct api_key_set; simpl.
  - destruct outcome; intros [= <-]; eauto.
  - intros [= <-]. eauto.
Qed.

Lemma score_with_openai_returns outcome rb scoring :
  score_with_openai lower str_of truthy as_dict api_key_set outcome rb
  = inr scoring →
  ∃ raw, scoring = parse_scoring_response lower str_of truthy as_dict raw rb.
Proof.
  unfold score_with_openai. destruct api_key_set; simpl; [|done].
  destruct outcome as [raw| |]; intros [= <-]. eauto.
Qed.

Lemma match_level_points response levels :
  (match_level lower upper response levels).1 ∈ 0 :: (lv_points <$> levels).
Proof.
  induction levels as [|lv levels IH]; cbn [match_level fmap list_fmap].
  - apply list_elem_of_here.
  - case_bool_decide.
    + apply list_elem_of_further, list_elem_of_here.
    + apply elem_of_cons in IH as [IH|IH].
      * rewrite IH. apply list_elem_of_here.
      * by do 2 apply list_elem_of_further.
Qed.

Lemma convert_entries answers rb rationales :
  Forall2
    (λ c e, c1_id e = cr_id c ∧ c1_score e = c1_points_awarded e
            ∧ c1_points_awarded e ∈ 0 :: (lv_points <$> cr_levels c))
    (r1_criteria rb)
    (convert_yes_no_na_to_scores lower upper answers rb rationales).
Proof.
  unfold convert_yes_no_na_to_scores.
  apply Forall2_fmap_r, Forall_Forall2_diag, Forall_forall.
  intros c _. unfold compose, convert_criterion. cbv beta zeta.
  pose proof (match_level_points
                (lower (default (text_of_string "na") (answers !! cr_id c)))
                (cr_levels c)) as Hpoints.
  destruct (match_level _ _ _ _) as [points base]. done.
Qed.

(** A report of the discrete scorer, taken apart. *)
Lemma score_transcript_returned data rubric_path r :
  scored data rubric_path = inr r →
  ∃ rb,
    load_rubric rubric_path = inr rb
    ∧ strip (default [] (td_transcription data)) ≠ []
    ∧ dom (v1_yes_no_na_responses r) = list_to_set (cr_id <$> r1_criteria rb)
    ∧ map_Forall
        (λ _ answer,
           answer ∈ [ text_of_string "yes"; text_of_string "no";
                      text_of_string "na" ])
        (v1_yes_no_na_responses r)
    ∧ Forall2
        (λ c e, c1_id e = cr_id c ∧ c1_score e = c1_points_awarded e
                ∧ c1_points_awarded e ∈ 0 :: (lv_points <$> cr_levels c))
        (r1_criteria rb) (v1_criteria_scores r)
    ∧ v1_total_points r = default 100 (r1_total_points rb)
    ∧ v1_total_score r
      = foldr Z.add 0 (c1_points_awarded <$> v1_criteria_scores r)
    ∧ v1_percentage r = percent (v1_total_score r) (v1_total_points r).
Proof.
  unfold score_transcript.
  destruct (strip (default [] (td_transcription data))) as [|c t] eqn:Hstrip.
  { by rewrite orb_true_r. }
  destruct (default [] (td_transcription data)) as [|c0 t0] eqn:Htr; [done|].
  cbn [nonempty negb orb].
  destruct (load_rubric rubric_path) as [e|rb]; [done|].
  destruct load_project_knowledge as [e|project_knowledge]; [done|].
  destruct (score_with_openai _ _ _ _ _ _ _) as [e|scoring] eqn:Hscore; [done|].
  apply score_with_openai_returns in Hscore as [raw ->].
  destruct (parsed_answers_cover_rubric lower str_of truthy as_dict raw rb)
    as (answers & rationales & -> & Hdom & _ & Hvalid).
  intros [= <-]. exists rb. cbn.
  split; [done|]. split; [done|]. split; [exact Hdom|].
  split; [exact Hvalid|]. split; [apply convert_entries|].
  split; [done|]. split; [|done].
  unfold sum_points. by rewrite sum_points_from.
Qed.

End DiscreteReport.

(** X16.  The discrete report: whenever [score_transcript] returns a report,
    the transcript was not blank and the rubric was loaded; the raw
    responses it shows are yes, no or na for exactly the rubric's criterion
    ids; each criterion has its entry, whose points are 0 or the points of
    one of its levels; the total is the sum of the points awarded, with no
    gate, and the percentage is computed from it and the rubric's budget. *)
Theorem discrete_report_sound (lower upper : text → text) {value : Type}
    (str_of : value → text) (truthy : value → bool)
    (as_dict : value → option (gmap string value))
    (model : string) {knowledge : Type}
    (load_rubric : option string → result rubric_v1)
    (load_project_knowledge : result knowledge) (api_key_set : bool)
    (chat : text → rubric_v1 → knowledge → list segment → chat_outcome value)
    (data : transcript_data) (rubric_path : option string) (r : report_v1) :
  score_transcript lower upper str_of truthy as_dict model load_rubric
    load_project_knowledge api_key_set chat data rubric_path = inr r →
  ∃ rb,
    load_rubric rubric_path = inr rb
    ∧ strip (default [] (td_transcription data)) ≠ []
    ∧ dom (v1_yes_no_na_responses r) = list_to_set (cr_id <$> r1_criteria rb)
    ∧ map_Forall
        (λ _ answer,
           answer ∈ [ text_of_string "yes"; text_of_string "no";
                      text_of_string "na" ])
        (v1_yes_no_na_responses r)
    ∧ Forall2
        (λ c e, c1_id e = cr_id c ∧ c1_score e = c1_points_awarded e
                ∧ c1_points_awarded e ∈ 0 :: (lv_points <$> cr_levels c))
        (r1_criteria rb) (v1_criteria_scores r)
    ∧ v1_total_points r = default 100 (r1_total_points rb)
    ∧ v1_total_score r
      = foldr Z.add 0 (c1_points_awarded <$> v1_criteria_scores r)
    ∧ v1_percentage r = percent (v1_total_score r) (v1_total_points r).
Proof.
  intros Hreturned.
  by eapply score_transcript_returned.
Qed.

Lemma discrete_report_witness :
  ∃ r, score_transcript id id id nonempty (λ _, None) "gpt-4o-mini"
         (λ _, Return greeting_rubric) (Return tt) true
         (λ _ _ _ _, ChatReturned legacy_response) spoken_request None
       = inr r
       ∧ v1_total_score r = 5.
Proof.
  eexists. split; [by vm_compute|].
  match goal with
  | |- v1_total_score ?r = _ =>
      destruct (discrete_report_sound id id id nonempty (λ _, None)
                  "gpt-4o-mini" (λ _, Return greeting_rubric) (Return tt) true
                  (λ _ _ _ _, ChatReturned legacy_response) spoken_request
                  None r) as (rb & _ & _ & _ & _ & _ & _ & Htotal & _);
        [by vm_compute | rewrite Htotal; by vm_compute]
  end.
Defined.

Section ScoreEndpoint.
Context (lower upper : text → text).
Context {value : Type}.
Context (str_of : value → text) (truthy : value → bool).
Context (as_dict : value → option (gmap string value)).
Context (model : string) {reckoner faq knowledge : Type}.
Context (load_rubric_v2 : option string → result rubric).
Context (load_project_reckoner : result reckoner).
Context (load_faq_data : result faq).
Context (score_transcript_v2 :
           text → rubric → reckoner → faq → list segment →
           result (gmap string judgment)).
Context (load_rubric : option string → result rubric_v1).
Context (load_project_knowledge : result knowledge).
Context (api_key_set : bool).
Context (chat : text → rubric_v1 → knowledge → list segment →
                chat_outcome value).

(** The endpoint with both scorers in place, each called without a rubric
    path. *)
Local Abbreviation endpoint version data :=
  (score_transcript_endpoint lower
     (λ d, score_transcript_main model load_rubric_v2 load_project_reckoner
             load_faq_data score_transcript_v2 d None)
     (λ d, score_transcript lower upper str_of truthy as_dict model
             load_rubric load_project_knowledge api_key_set chat d None)
     version data).

(** X17.  The scoring endpoint: a request whose transcript is missing,
    empty or blank is answered with status 400 and "Transcript is empty or
    missing", whichever version it names; on the version 1 path a failing
    chat call is answered with 400 as well, since [score_with_openai] turns
    every exception into a [ValueError]; on the version 2 path a rubric file
    that is not found is answered with 500. *)
Theorem score_endpoint_statuses (version : option text)
    (data : transcript_data) :
  (strip (default [] (td_transcription data)) = [] →
   endpoint version data
   = HTTPException 400 "Transcript is empty or missing")
  ∧ (∀ rb project_knowledge msg,
       strip (default [] (td_transcription data)) ≠ [] →
       lower (default (text_of_string "v2") version) ≠ text_of_string "v2" →
       load_rubric None = inr rb →
       load_project_knowledge = inr project_knowledge →
       api_key_set = true →
       chat (default [] (td_transcription data)) rb project_knowledge
         (default [] (td_speaker_segments data)) = ChatFailed msg →
       endpoint version data
       = HTTPException 400 ("OpenAI API error: " +:+ msg))
  ∧ (∀ msg,
       strip (default [] (td_transcription data)) ≠ [] →
       lower (default (text_of_string "v2") version) = text_of_string "v2" →
       load_rubric_v2 None = inl (FileNotFoundError msg) →
       endpoint version data
       = HTTPException 500 ("Error scoring transcript: " +:+ msg)).
Proof.
  assert (Hgo : strip (default [] (td_transcription data)) ≠ [] →
            negb (nonempty (default [] (td_transcription data)))
            || negb (nonempty (strip (default [] (td_transcription data))))
            = false).
  { intros Hstrip.
    destruct (default [] (td_transcription data)) as [|c t]; [done|].
    by destruct (strip (c :: t)). }
  split; [|split].
  - intros Hblank. unfold score_transcript_endpoint.
    rewrite (blank_transcript_raises _ _ _ _ _ _ _ Hblank).
    rewrite (score_transcript_blank _ _ _ _ _ _ _ _ _ _ _ _ Hblank).
    by case_bool_decide.
  - intros rb project_knowledge msg Hstrip Hversion Hrb Hk Hkey Hchat.
    unfold score_transcript_endpoint.
    rewrite bool_decide_eq_false_2 by done.
    unfold score_transcript. rewrite (Hgo Hstrip), Hrb, Hk, Hchat.
    unfold score_with_openai. rewrite Hkey. reflexivity.
  - intros msg Hstrip Hversion Hrb.
    unfold score_transcript_endpoint.
    rewrite bool_decide_eq_true_2 by done.
    unfold score_transcript_main. rewrite (Hgo Hstrip), Hrb. reflexivity.
Qed.

End ScoreEndpoint.

Lemma score_endpoint_witness :
  score_transcript_endpoint id
    (λ d, score_transcript_main "gpt-4o-mini" no_rubric (Return tt)
            (Return tt) silent_oracle d None)
    (λ d, score_transcript id id id nonempty (λ _, None) "gpt-4o-mini"
            (λ _, Return greeting_rubric) (Return tt) true
            (λ _ _ _ _, ChatReturned legacy_response) d None)
    (Some (text_of_string "v1")) blank_request
  = HTTPException 400 "Transcript is empty or missing".
Proof.
  destruct (score_endpoint_statuses id id id nonempty (λ _, None)
              "gpt-4o-mini" no_rubric (Return tt) (Return tt) silent_oracle
              (λ _, Return greeting_rubric) (Return tt) true
              (λ _ _ _ _, ChatReturned legacy_response)
              (Some (text_of_string "v1")) blank_request) as [Hblank _].
  apply Hblank. reflexivity.
Defined.


